(** * MapDiff: the analyzer of [mapdiff.py]

    A shallow embedding of [Analyzer.__init__], [Analyzer._build_map] and
    [Analyzer.compare], with the [str] methods they call, and the properties
    of the parser and of the comparison that the specification states;
    then of the report that [Program._scan] writes and of the command line
    of [Program.main], with the properties that the code of these shows.

    Text is a [string] of characters with code points below 256; dictionaries
    are [gmap string string]; the sets of [(key, value)] tuples built by
    [compare] are [gset (string * string)]. *)

From Stdlib Require Import Ascii String DecimalString.
From stdpp Require Import base option list strings gmap sets.

(** ** The [str] methods used by the analyzer *)

Module PyStr.

(** [c.isspace()] for a character below U+0100: TAB, LF, VT, FF, CR, the
    separators FS, GS, RS and US, SPACE, NEL and NBSP. *)
Definition isspace (c : ascii) : bool :=
  let n := nat_of_ascii c in
  (Nat.leb 9 n && Nat.leb n 13) || (Nat.leb 28 n && Nat.leb n 32)
  || Nat.eqb n 133 || Nat.eqb n 160.

(** [s.lstrip()] *)
Fixpoint lstrip (s : string) : string :=
  match s with
  | EmptyString => EmptyString
  | String c r => if isspace c then lstrip r else s
  end.

(** [s.rstrip()] *)
Fixpoint rstrip (s : string) : string :=
  match s with
  | EmptyString => EmptyString
  | String c r =>
      match rstrip r with
      | EmptyString => if isspace c then EmptyString else String c EmptyString
      | r' => String c r'
      end
  end.

(** [s.strip()] *)
Definition strip (s : string) : string := rstrip (lstrip s).

(** [s.split(sep)] for a one-character separator: never the empty list. *)
Fixpoint split (sep : ascii) (s : string) : list string :=
  match s with
  | EmptyString => [EmptyString]
  | String c r =>
      if Ascii.eqb c sep then EmptyString :: split sep r
      else match split sep r with
           | field :: fields => String c field :: fields
           | [] => [String c EmptyString]
           end
  end.

(** [sep.join(fields)] *)
Fixpoint join (sep : string) (fields : list string) : string :=
  match fields with
  | [] => EmptyString
  | [field] => field
  | field :: rest => field +:+ sep +:+ join sep rest
  end.

(** [s.startswith(p)] *)
Fixpoint startswith (p s : string) : bool :=
  match p, s with
  | EmptyString, _ => true
  | String a p', String b s' => Ascii.eqb a b && startswith p' s'
  | String _ _, EmptyString => false
  end.

(** The scan of [s.replace(old, new)] for a non-empty [old]: occurrences are
    taken left to right and do not overlap; [skip] counts the characters of
    the occurrence just replaced that are still to be passed over. *)
Fixpoint replace_scan (old new : string) (skip : nat) (s : string) : string :=
  match s with
  | EmptyString => EmptyString
  | String c r =>
      match skip with
      | S k => replace_scan old new k r
      | O =>
          if startswith old s
          then new +:+ replace_scan old new (String.length old - 1) r
          else String c (replace_scan old new 0 r)
      end
  end.

(** With an empty [old], [new] is put before every character and at the
    end. *)
Fixpoint replace_empty (new s : string) : string :=
  match s with
  | EmptyString => new
  | String c r => new +:+ String c (replace_empty new r)
  end.

(** [s.replace(old, new)] *)
Definition replace (old new s : string) : string :=
  match old with
  | EmptyString => replace_empty new s
  | String _ _ => replace_scan old new 0 s
  end.

End PyStr.

(** The line feed that ends a line of a text stream. *)
Definition LF : ascii := ascii_of_nat 10.

(** ** The analyzer *)

(** What a path of the file system leads to: a text file with its content
    (newlines already translated to LF), or something that exists but that
    [open(filename, 'r')] or the reading of it fails on, with the text of the
    exception. A path that is not in the map does not exist. *)
Inductive node :=
  | File (content : string)
  | Unreadable (error : string).

(** The messages handed to the module's logger, oldest first. *)
Inductive level := INFO | NOTE | ERROR.

Module Analyzer.

(** The attributes of an analyzer; a map is [None] when [_build_map] returned
    [None]. *)
Record t := {
  original_map : option (gmap string string);
  current_map : option (gmap string string);
  found_data : option string
}.

(** [for line in stream]: every line keeps its line feed; the last one has
    none when the text does not end with one. *)
Fixpoint readlines (stream : string) : list string :=
  match stream with
  | EmptyString => []
  | String c r =>
      if Ascii.eqb c LF then String c EmptyString :: readlines r
      else match readlines r with
           | line :: lines => String c line :: lines
           | [] => [String c EmptyString]
           end
  end.

(** The three statements of the loop body of [_build_map], for one line: the
    key and the value it stores. *)
Definition parse_line (line : string) : string * string :=
  let current_file_data :=
    PyStr.split "|" (List.last (PyStr.split ">" line) EmptyString) in
  let current_file_name :=
    PyStr.strip (List.hd EmptyString current_file_data) +:+ "|" in
  (current_file_name,
   PyStr.replace current_file_name ""
     (PyStr.strip (PyStr.join "|" current_file_data))).

(** One turn of the loop: [hash_map[current_file_name] = ...]. *)
Definition store_line (hash_map : gmap string string) (line : string)
  : gmap string string :=
  <[(parse_line line).1 := (parse_line line).2]> hash_map.

(** The loop of [_build_map] over the lines of the stream. *)
Definition build_lines (lines : list string) : gmap string string :=
  foldl store_line ∅ lines.

(** [_build_map(filename)]: the logged messages and the returned value. The
    [except] clause logs the error and the method then returns [None]. *)
Definition _build_map (fs : gmap string node) (filename : string)
  : list (level * string) * option (gmap string string) :=
  let info := (INFO, "Building system map for: '" +:+ filename +:+ "'") in
  match fs !! filename with
  | Some (File content) => ([info], Some (build_lines (readlines content)))
  | Some (Unreadable error) => ([info; (ERROR, error)], None)
  | None =>
      ([info; (ERROR, "[Errno 2] No such file or directory: '"
                        +:+ filename +:+ "'")], None)
  end.

(** How [Analyzer(...)] ends: [sys.exit(code)], or an analyzer. *)
Inductive construction :=
  | SystemExit (code : Z)
  | Constructed (self : t).

(** [os.path.exists(path)] *)
Definition exists_path (fs : gmap string node) (path : string) : bool :=
  bool_decide (is_Some (fs !! path)).

(** [Analyzer.__init__(original_map_file, current_map_file)] *)
Definition __init__ (fs : gmap string node)
    (original_map_file current_map_file : string)
  : list (level * string) * construction :=
  if negb (exists_path fs original_map_file) then
    ([(ERROR, "Please provide the original hash map to compare against the current one.")],
     SystemExit 2)
  else if negb (exists_path fs current_map_file) then
    ([(ERROR, "Please provide the current hash map to compare against the original one.")],
     SystemExit 2)
  else
    let '(log1, original) := _build_map fs original_map_file in
    let '(log2, current) := _build_map fs current_map_file in
    (log1 ++ log2 ++ [(NOTE, "System maps have been reconstructed!")],
     Constructed {| original_map := original;
                    current_map := current;
                    found_data := None |}).

(** [set(m.items())] *)
Definition items (m : gmap string string) : gset (string * string) :=
  list_to_set (map_to_list m).

(** [a ^ b] *)
Definition symmetric_difference (a b : gset (string * string))
  : gset (string * string) :=
  (a ∖ b) ∪ (b ∖ a).

(** [set_difference] as [compare] computes it from the two maps. *)
Definition set_difference (original current : gmap string string)
  : gset (string * string) :=
  symmetric_difference (items original) (items current).

(** The body of the loop of [compare]: the first tuple met for a key is the
    one that stays. *)
Definition record_entry (result_set : gmap string string)
    (entry_tuple : string * string) : gmap string string :=
  match result_set !! entry_tuple.1 with
  | Some _ => result_set
  | None => <[entry_tuple.1 := entry_tuple.2]> result_set
  end.

(** The loop of [compare], run over the tuples in the order in which the
    set yields them. *)
Definition collect (order : list (string * string)) : gmap string string :=
  foldl record_entry ∅ order.

(** The language does not fix the order in which [for entry_tuple in
    set_difference] yields the members of the set: [order] is a possible one
    when it lists every member once and nothing else. *)
Definition iteration_of (s : gset (string * string))
    (order : list (string * string)) : Prop :=
  NoDup order ∧ list_to_set order = s.

(** How a call of [compare] ends: the returned dictionary, or the
    [AttributeError] of [None.items()]. *)
Inductive outcome :=
  | Return (result_set : gmap string string)
  | AttributeError.

(** [self.compare(original_map_file, current_map_file, print_to_console)]:
    the outcomes the call can have. The three arguments are not read. *)
Inductive compare (self : t) (original_map_file current_map_file : string)
    (print_to_console : bool) : outcome → Prop :=
  | compare_return original current order :
      original_map self = Some original →
      current_map self = Some current →
      iteration_of (set_difference original current) order →
      compare self original_map_file current_map_file print_to_console
        (Return (collect order))
  | compare_raise :
      original_map self = None ∨ current_map self = None →
      compare self original_map_file current_map_file print_to_console
        AttributeError.

(** An analyzer whose two maps were built. *)
Definition loaded (original current : gmap string string) : t :=
  {| original_map := Some original;
     current_map := Some current;
     found_data := None |}.

End Analyzer.

(** ** The program *)

(** The horizontal tab that [_scan] puts before every field it writes. *)
Definition TAB : ascii := ascii_of_nat 9.

Module Program.

(** [s[:-1]] *)
Fixpoint drop_last (s : string) : string :=
  match s with
  | EmptyString => EmptyString
  | String c EmptyString => EmptyString
  | String c r => String c (drop_last r)
  end.

(** [str(n)] and [f"{n}"] for a count. *)
Definition str_of_count (n : nat) : string :=
  NilZero.string_of_uint (Nat.to_uint n).

(** [x in argv] *)
Definition member (x : string) (argv : list string) : bool :=
  bool_decide (x ∈ argv).

(** [argv.remove(x)] for an [x] that is in the list: its first occurrence
    goes. *)
Fixpoint remove_first (x : string) (argv : list string) : list string :=
  match argv with
  | [] => []
  | y :: rest => if decide (y = x) then rest else y :: remove_first x rest
  end.

(** [[f"\t{item}" for item in value.split('|')]] *)
Definition tabbed (value : string) : list string :=
  String TAB <$> PyStr.split "|" value.

(** [str(data[-1].split(' ')[-1].strip())] *)
Definition checksum (data : list string) : string :=
  PyStr.strip
    (List.last (PyStr.split " " (List.last data EmptyString)) EmptyString).

(** [''.join(["=" for count in range(0, 100)])] and the like. *)
Definition seperator : string := String.concat "" (replicate 100 "=").
Definition seperator2 : string := String.concat "" (replicate 100 "-").

(** What the loop of [_scan] has counted and handed to [stream.write] and
    to [print] so far, oldest first. *)
Record report := {
  total_count : nat;
  difference_count : nat;
  written : list string;
  printed : list string
}.

(** How the [try] statement of [_scan] ends. [Exits]: the [sys.exit] of the
    construction of the analyzer, which [except Exception] lets through.
    [Failed]: an exception caught there, whose text goes to the logger as an
    error. [NoChanges]: the dictionary of differences was empty, nothing is
    written and the logger gets the success message. [Reported]: the results
    file was opened and written to, and the logger gets the warning that
    changes were detected. *)
Inductive scan_outcome :=
  | Exits (code : Z)
  | Failed (error : string)
  | NoChanges
  | Reported (result : report).

(** How the call [self._scan()] ends for [main]. [prompt_raised]: an
    exception of [_check_results_log], which runs before the [try] statement
    of [_scan], leaves the method. [try_ended]: [_check_results_log] returned
    and the [try] statement ended as said. *)
Inductive scan_call :=
  | prompt_raised
  | try_ended (outcome : scan_outcome).

(** The methods of the program that [main] calls, each with what matters
    of its effect: [_print_usage] and [_print_greeting] print fixed texts,
    [_scan] ends as said. *)
Inductive call :=
  | print_usage
  | print_greeting
  | scan (ended : scan_call).

(** [c.lower()] for a character below U+0100: the letters A to Z and the
    accented capitals, the multiplication sign between them left out, move up
    by 32. *)
Definition lower_char (c : ascii) : ascii :=
  let n := nat_of_ascii c in
  if (Nat.leb 65 n && Nat.leb n 90) || (Nat.leb 192 n && Nat.leb n 214)
     || (Nat.leb 216 n && Nat.leb n 222)
  then ascii_of_nat (n + 32) else c.

(** [s.lower()] *)
Fixpoint lower (s : string) : string :=
  match s with
  | EmptyString => EmptyString
  | String c r => String (lower_char c) (lower r)
  end.

(** [valid_responses] in [_check_results_log]. *)
Definition valid_responses : list string :=
  ["y"; "yes"; "ok"; "sure"; "of course"; "ofcourse"; "duh"; "okay"; "yep";
   "yeah"; "ye"; "alright"; "please"; "bien"; "si"].

(** What [input(...)] gives to [_check_results_log]: the line typed, or no
    line, when [input] raises at the end of the input or on an interrupt. *)
Inductive reply :=
  | Typed (line : string)
  | NoLine.

(** [_check_results_log()], with [results_file] for [_default_results_file]:
    the file system it leaves, or [None] when it raises, as it does when
    [input] raises and when [os.remove] does, which [remove_fails] tells. The
    results file is asked about only when it is there, and removed only on one
    of the valid responses, in any case of letters. The notes to the logger
    are left out. *)
Definition _check_results_log (fs : gmap string node) (results_file : string)
    (answer : reply) (remove_fails : bool) : option (gmap string node) :=
  if Analyzer.exists_path fs results_file then
    match answer with
    | NoLine => None
    | Typed line =>
        if member (lower line) valid_responses then
          if remove_fails then None else Some (delete results_file fs)
        else Some fs
    end
  else Some fs.

(** How [main] ends: it returns, or [sys.exit(code)] leaves it. *)
Inductive ending :=
  | Returns
  | SysExit (code : Z).

Section upper.

(** [s.upper()], whose result can leave the characters below U+0100. *)
Variable upper : string → string.

(** The text [data] that the loop of [_scan] writes for a file. *)
Definition block (filename : string) (original_data current_data : list string)
  : string :=
  let filename_parts := PyStr.split " " filename in
  let merged_original := PyStr.join (String LF "") original_data in
  let merged_current := PyStr.join (String LF "") current_data in
  seperator +:+ String LF "["
  +:+ upper (drop_last (List.hd EmptyString filename_parts)) +:+ "]: "
  +:+ drop_last (List.last filename_parts EmptyString)
  +:+ String LF seperator +:+ String LF "[ORIGINAL DATA]: "
  +:+ String LF merged_original +:+ String LF seperator2
  +:+ String LF "[CURRENT DATA]: " +:+ String LF merged_current
  +:+ String LF (String LF (String LF (String LF ""))).

(** The body of the loop of [_scan] for one key of the dictionary of
    differences. A key that one of the two maps lacks raises [KeyError],
    which the loop passes over: the key has been counted and nothing else
    is done for it. *)
Definition report_entry (verbose : bool)
    (original_map current_map : gmap string string)
    (state : report) (filename : string) : report :=
  let counted :=
    {| total_count := S (total_count state);
       difference_count := difference_count state;
       written := written state;
       printed := printed state |} in
  match original_map !! filename with
  | None => counted
  | Some original_value =>
      let original_data := tabbed original_value in
      match current_map !! filename with
      | None => counted
      | Some current_value =>
          let current_data := tabbed current_value in
          let original_checksum := checksum original_data in
          let current_checksum := checksum current_data in
          if bool_decide (current_checksum ≠ original_checksum) then
            let data := block filename original_data current_data in
            {| total_count := total_count counted;
               difference_count := S (difference_count counted);
               written := written counted ++ [data];
               printed := printed counted ++ (if verbose then [data] else []) |}
          else counted
      end
  end.

(** [for filename in difference_map] over the keys of the dictionary in the
    order of the loop. *)
Definition report_loop (verbose : bool)
    (original_map current_map : gmap string string) (keys : list string)
  : report :=
  foldl (report_entry verbose original_map current_map)
    {| total_count := 0; difference_count := 0; written := []; printed := [] |}
    keys.

(** [output_message], with [now] for the date and time as formatted. *)
Definition output_message (now : string) : string :=
  "OUTPUT GENERATED BY: MapDiff v(1.0.0)[Flamberge] on " +:+ now
  +:+ String LF "".

(** [difference_message] *)
Definition difference_message (difference_count : nat)
    (original_map_file current_map_file : string) : string :=
  "There is a file change difference of " +:+ str_of_count difference_count
  +:+ " between the system maps originally located at '" +:+ original_map_file
  +:+ "' and '" +:+ current_map_file +:+ "'." +:+ String LF "".

(** The body of [with open(...) as stream] in [_scan]: the loop, then the
    two closing lines. *)
Definition write_report (verbose : bool)
    (original_map_file current_map_file now : string)
    (original_map current_map : gmap string string) (keys : list string)
  : report :=
  let looped := report_loop verbose original_map current_map keys in
  let closing :=
    difference_message (difference_count looped)
      original_map_file current_map_file in
  {| total_count := total_count looped;
     difference_count := difference_count looped;
     written := written looped ++ [output_message now; closing];
     printed :=
       printed looped
       ++ (if verbose
           then [PyStr.replace (String LF "") "" (output_message now); closing]
           else []) |}.

(** The keys of the dictionary that the loop of [compare] fills, in the order
    in which it inserted them: the order that [for filename in
    difference_map] follows. *)
Definition insertion_order (order : list (string * string)) : list string :=
  foldl (λ keys entry_tuple,
           if decide (entry_tuple.1 ∈ keys) then keys
           else keys ++ [entry_tuple.1])
    [] order.

(** [_scan] from its [try] statement on, with the files at [self.original_map]
    and [self.current_map] and the flag [self.verbose]. [order] is the order
    in which the set in [compare] yields its tuples. What is left out: the
    messages to the logger, which follow the outcome; the results file is
    taken to open for appending. The call of [_check_results_log] before the
    [try] is in [run_scan]. *)
Definition _scan (fs : gmap string node) (verbose : bool)
    (original_map_file current_map_file now : string)
    (order : list (string * string)) : scan_outcome :=
  match (Analyzer.__init__ fs original_map_file current_map_file).2 with
  | Analyzer.SystemExit code => Exits code
  | Analyzer.Constructed analyzer =>
      match Analyzer.original_map analyzer, Analyzer.current_map analyzer with
      | Some original_map, Some current_map =>
          let difference_map := Analyzer.collect order in
          if bool_decide (0 < size difference_map) then
            Reported
              (write_report verbose original_map_file current_map_file now
                 original_map current_map (insertion_order order))
          else NoChanges
      | _, _ => Failed "'NoneType' object has no attribute 'items'"
      end
  end.

(** [self._scan()] as [main] calls it: [_check_results_log()] first, on the
    results file at [results_file] with the reply [answer], then the [try]
    statement on the file system that is left. *)
Definition run_scan (fs : gmap string node) (results_file : string)
    (answer : reply) (remove_fails : bool) (verbose : bool)
    (original_map_file current_map_file now : string)
    (order : list (string * string)) : scan_call :=
  match _check_results_log fs results_file answer remove_fails with
  | None => prompt_raised
  | Some fs' =>
      try_ended (_scan fs' verbose original_map_file current_map_file now order)
  end.

(** [main], with [argv] for [sys.argv]: the calls it makes and how it ends.
    Whatever leaves [_scan], the [sys.exit] of the analyzer or an exception
    of [_check_results_log], is caught by the bare [except] around the call,
    as the [IndexError] of a missing argument is. The half second that [main]
    waits at first is left out. *)
Definition main (fs : gmap string node) (results_file : string)
    (answer : reply) (remove_fails : bool) (now : string)
    (order : list (string * string)) (argv : list string)
  : list call * ending :=
  let flagged := member "-v" argv || member "--verbose" argv in
  let argv :=
    if flagged then
      if member "-v" argv then remove_first "-v" argv
      else remove_first "--verbose" argv
    else argv in
  let verbose := flagged in
  if member "-h" argv || member "--help" argv then ([print_usage], SysExit 2)
  else if bool_decide (0 < length argv) then
    if bool_decide (3 < length argv) then ([print_usage], Returns)
    else
      match argv !! 1, argv !! 2 with
      | Some original_map, Some current_map =>
          let ended :=
            run_scan fs results_file answer remove_fails verbose
              original_map current_map now order in
          match ended with
          | prompt_raised | try_ended (Exits _) =>
              ([print_greeting; scan ended; print_usage], Returns)
          | _ => ([print_greeting; scan ended], Returns)
          end
      | _, _ => ([print_usage], Returns)
      end
  else ([print_usage], Returns).

End upper.

End Program.

(** ** Notions used to state the properties *)

(** The value of the first tuple of [order] whose key is [k]. *)
Fixpoint first_value (k : string) (order : list (string * string))
  : option string :=
  match order with
  | [] => None
  | entry_tuple :: rest =>
      if decide (entry_tuple.1 = k) then Some entry_tuple.2
      else first_value k rest
  end.

(** Whether [sep] occurs in [s]. *)
Fixpoint occurs (sep : ascii) (s : string) : bool :=
  match s with
  | EmptyString => false
  | String c r => Ascii.eqb c sep || occurs sep r
  end.

(** The text after the last [sep] of [s]; all of [s] when it has none. *)
Fixpoint after_last (sep : ascii) (s : string) : string :=
  match s with
  | EmptyString => EmptyString
  | String c r =>
      if occurs sep r then after_last sep r
      else if Ascii.eqb c sep then r else s
  end.

(** The text before the first [sep] of [s]; all of [s] when it has none. *)
Fixpoint before_first (sep : ascii) (s : string) : string :=
  match s with
  | EmptyString => EmptyString
  | String c r =>
      if Ascii.eqb c sep then EmptyString else String c (before_first sep r)
  end.

(** A blank line: nothing but white space. *)
Fixpoint all_space (s : string) : bool :=
  match s with
  | EmptyString => true
  | String c r => PyStr.isspace c && all_space r
  end.

(** [s.removeprefix(p)] *)
Definition removeprefix (p s : string) : string :=
  if PyStr.startswith p s
  then String.substring (String.length p) (String.length s - String.length p) s
  else s.

(** The key and the value of a line as the specification words them: the
    record body is what follows the last [>]; the key is its first field,
    trimmed, with the delimiter appended; the value is the other fields
    joined with the delimiter and trimmed, less the raw key text at its
    front. *)
Definition spec_parse_line (line : string) : string * string :=
  let fields := PyStr.split "|" (after_last ">" line) in
  let raw_key := PyStr.strip (List.hd EmptyString fields) in
  (raw_key +:+ "|",
   removeprefix raw_key (PyStr.strip (PyStr.join "|" (List.tl fields)))).

(** The classification that the specification gives to a diff record. The
    dictionary returned by [compare] has no such field. *)
Inductive kind := Added | Removed | Changed.

(** Whether [old] occurs in [s] as a run of consecutive characters. *)
Fixpoint substring_of (old s : string) : bool :=
  PyStr.startswith old s
  || match s with
     | EmptyString => false
     | String _ r => substring_of old r
     end.

(** Whether [s] has no line feed, or one as its last character only. *)
Fixpoint lf_only_last (s : string) : bool :=
  match s with
  | EmptyString => true
  | String c EmptyString => true
  | String c r => negb (Ascii.eqb c LF) && lf_only_last r
  end.

(** Whether [k] is in both maps with values whose checksums, as [_scan]
    reads them, differ. *)
Definition checksum_changed (original_map current_map : gmap string string)
    (k : string) : bool :=
  match original_map !! k, current_map !! k with
  | Some original_value, Some current_value =>
      bool_decide (Program.checksum (Program.tabbed current_value)
                   ≠ Program.checksum (Program.tabbed original_value))
  | _, _ => false
  end.

(** The text that the loop of [_scan] writes for the key [k], if it writes
    one. *)
Definition entry_block (upper : string → string)
    (original_map current_map : gmap string string) (k : string)
  : option string :=
  match original_map !! k, current_map !! k with
  | Some original_value, Some current_value =>
      if checksum_changed original_map current_map k
      then Some (Program.block upper k (Program.tabbed original_value)
                   (Program.tabbed current_value))
      else None
  | _, _ => None
  end.

(** The flags of the command line. *)
Definition is_flag (x : string) : bool :=
  bool_decide (x ∈ ["-v"; "--verbose"; "-h"; "--help"]).

(** ** Sample data *)

Definition hosts_line : string :=
  "2021-01-01 00:00:00 > /etc/hosts|4096|d41d8cd98f00b204e9800998ecf8427e".
Definition hosts_key : string := "/etc/hosts|".
Definition hosts_original : string := "4096|d41d8cd98f00b204e9800998ecf8427e".
Definition hosts_current : string := "4096|5d41402abc4b2a76b9719d911017c592".

Definition original_hosts : gmap string string :=
  {[ hosts_key := hosts_original ]}.
Definition current_hosts : gmap string string :=
  {[ hosts_key := hosts_current ]}.

Definition new_key : string := "/tmp/new.txt|".
Definition new_value : string := "10|900150983cd24fb0d6963f7d28e17f72".
Definition new_map : gmap string string := {[ new_key := new_value ]}.

(** A path whose text comes back in a later field of its line. *)
Definition bin_line : string := "2021-01-01 00:00:00 > /bin|7|/usr/bin|0755".

(** A file with a line without [>] and a line without key text. *)
Definition unseparated_content : string :=
  "/etc/hosts|4096|d41d" +:+ String LF "2021-01-01 > |4096" +:+ String LF "".

(** A file that ends with a blank line. *)
Definition blank_content : string :=
  hosts_line +:+ String LF (String LF "").

(** [s.upper()] on a text of letters, digits and signs of ASCII. *)
Fixpoint upper_ascii (s : string) : string :=
  match s with
  | EmptyString => EmptyString
  | String c r =>
      let n := nat_of_ascii c in
      String (if Nat.leb 97 n && Nat.leb n 122 then ascii_of_nat (n - 32)
              else c)
        (upper_ascii r)
  end.

(** A file in which a path comes twice. *)
Definition duplicate_content : string :=
  "2021-01-01 00:00:00 > /etc/hosts|4096|d41d" +:+ String LF
    "2021-01-02 00:00:00 > /etc/hosts|4100|5d41" +:+ String LF "".

(** The map file of a first walk, that of a later walk in which one file has
    changed and one is gone, and a directory in their place. *)
Definition original_content : string :=
  hosts_line +:+ String LF
    "2021-01-01 00:00:00 > /var/log/old.log|12|0cc175b9c0f1b6a831c399e269772661"
  +:+ String LF "".
Definition current_content : string :=
  "2021-01-02 00:00:00 > /etc/hosts|4096|5d41402abc4b2a76b9719d911017c592"
  +:+ String LF "".
Definition sample_fs : gmap string node :=
  {[ "original.map" := File original_content;
     "current.map" := File current_content;
     "maps" := Unreadable "[Errno 21] Is a directory: 'maps'" ]}.

(** The same with the results file of the day there already. *)
Definition sample_fs_with_results : gmap string node :=
  <["./mapdiff-results-2021-01-02.txt" := File "OUTPUT GENERATED BY: MapDiff"]>
    sample_fs.

Definition old_key : string := "/var/log/old.log|".
Definition old_value : string := "12|0cc175b9c0f1b6a831c399e269772661".

(** Two orders in which the set of [compare] can yield its tuples for the
    two sample files. *)
Definition sample_order : list (string * string) :=
  [(hosts_key, hosts_current); (old_key, old_value);
   (hosts_key, hosts_original)].
Definition sample_order' : list (string * string) :=
  [(old_key, old_value); (hosts_key, hosts_original);
   (hosts_key, hosts_current)].

(** ** Lemmas on the loop of [compare] *)

Section compare_loop.

Import Analyzer.

Lemma record_entry_lookup result_set entry_tuple k :
  record_entry result_set entry_tuple !! k =
  match result_set !! k with
  | Some v => Some v
  | None => if decide (entry_tuple.1 = k) then Some entry_tuple.2 else None
  end.
Proof.
  unfold record_entry.
  destruct (result_set !! entry_tuple.1) as [w|] eqn:Hk.
  - destruct (result_set !! k) as [v|] eqn:Hv; [done|].
    case_decide; [congruence | done].
  - case_decide as Heq.
    + subst k. by rewrite Hk, lookup_insert_eq.
    + rewrite lookup_insert_ne by done. by destruct (result_set !! k).
Qed.

Lemma foldl_record_entry_lookup order result_set k :
  foldl record_entry result_set order !! k =
  match result_set !! k with
  | Some v => Some v
  | None => first_value k order
  end.
Proof.
  revert result_set.
  induction order as [|entry_tuple rest IH]; intros result_set; simpl.
  - by destruct (result_set !! k).
  - rewrite IH, record_entry_lookup.
    destruct (result_set !! k); [done|]. by case_decide.
Qed.

Lemma collect_lookup order k : collect order !! k = first_value k order.
Proof. unfold collect. by rewrite foldl_record_entry_lookup, lookup_empty. Qed.

Lemma first_value_Some k v order :
  first_value k order = Some v → (k, v) ∈ order.
Proof.
  induction order as [|[k' v'] rest IH]; simpl; [done|].
  case_decide as Heq; simpl in Heq.
  - intros [= <-]. subst k'. apply elem_of_cons; by left.
  - intros Hv. apply elem_of_cons; right; auto.
Qed.

Lemma first_value_None k order :
  first_value k order = None ↔ ∀ v, (k, v) ∉ order.
Proof.
  induction order as [|[k' v'] rest IH]; simpl.
  - split; [intros _ v Hin; by apply elem_of_nil in Hin | done].
  - case_decide as Heq; simpl in Heq.
    + subst k'. split; [done|]. intros Hno.
      exfalso. apply (Hno v'), elem_of_cons; by left.
    + rewrite IH. split.
      * intros Hno v [Hhd|Htl]%elem_of_cons; [congruence | by apply (Hno v)].
      * intros Hno v Hin. apply (Hno v), elem_of_cons; by right.
Qed.

Lemma first_value_cons k v rest : first_value k ((k, v) :: rest) = Some v.
Proof. simpl. by rewrite decide_True. Qed.

(** The tuple that decides the entry of a key is the first one with that
    key. *)
Lemma first_value_split k v order :
  first_value k order = Some v →
  ∃ before after,
    order = before ++ (k, v) :: after ∧ ∀ w, (k, w) ∉ before.
Proof.
  induction order as [|[k' v'] rest IH]; simpl; [done|].
  case_decide as Heq; simpl in Heq.
  - intros [= <-]. subst k'. exists [], rest. split; [done|].
    intros w Hin. by apply elem_of_nil in Hin.
  - intros (before & after & -> & Hno)%IH.
    exists ((k', v') :: before), after. split; [done|].
    intros w [Hhd|Htl]%elem_of_cons; [congruence | by apply (Hno w)].
Qed.

Lemma elem_of_items m k v : (k, v) ∈ items m ↔ m !! k = Some v.
Proof. unfold items. by rewrite elem_of_list_to_set, elem_of_map_to_list. Qed.

Lemma elem_of_set_difference original current k v :
  (k, v) ∈ set_difference original current ↔
  (original !! k = Some v ∧ current !! k ≠ Some v)
  ∨ (current !! k = Some v ∧ original !! k ≠ Some v).
Proof.
  unfold set_difference, symmetric_difference.
  rewrite elem_of_union, !elem_of_difference, !elem_of_items. tauto.
Qed.

Lemma set_difference_comm original current :
  set_difference original current = set_difference current original.
Proof.
  unfold set_difference, symmetric_difference. apply union_comm_L.
Qed.

Lemma iteration_of_elem s order e :
  iteration_of s order → e ∈ order ↔ e ∈ s.
Proof. intros [_ <-]. by rewrite elem_of_list_to_set. Qed.

Lemma iteration_of_elements s : iteration_of s (elements s).
Proof. split; [apply NoDup_elements | apply list_to_set_elements_L]. Qed.

(** Any member of the set can be the one the iteration yields first. *)
Lemma iteration_of_first s e :
  e ∈ s → iteration_of s (e :: elements (s ∖ {[e]})).
Proof.
  intros He. split.
  - apply NoDup_cons. split; [|apply NoDup_elements].
    rewrite elem_of_elements, elem_of_difference, elem_of_singleton. tauto.
  - rewrite list_to_set_cons, list_to_set_elements_L.
    apply set_eq. intros x. rewrite elem_of_union, elem_of_difference,
      elem_of_singleton.
    destruct (decide (x = e)) as [->|Hne]; tauto.
Qed.

(** What the loop leaves under a key, whatever the order of iteration. *)
Lemma collect_lookup_Some original current order k v :
  iteration_of (set_difference original current) order →
  collect order !! k = Some v →
  (original !! k = Some v ∧ current !! k ≠ Some v)
  ∨ (current !! k = Some v ∧ original !! k ≠ Some v).
Proof.
  intros Hit Hv. rewrite collect_lookup in Hv.
  apply first_value_Some in Hv.
  by apply (iteration_of_elem _ _ _ Hit), elem_of_set_difference in Hv.
Qed.

Lemma collect_lookup_None original current order k :
  iteration_of (set_difference original current) order →
  collect order !! k = None ↔ original !! k = current !! k.
Proof.
  intros Hit. rewrite collect_lookup, first_value_None. split.
  - intros Hno.
    destruct (original !! k) as [a|] eqn:Ho, (current !! k) as [b|] eqn:Hc;
      try done.
    + destruct (decide (a = b)) as [->|Hne]; [done|].
      exfalso. apply (Hno a), (iteration_of_elem _ _ _ Hit),
        elem_of_set_difference. left. split; congruence.
    + exfalso. apply (Hno a), (iteration_of_elem _ _ _ Hit),
        elem_of_set_difference. left. split; congruence.
    + exfalso. apply (Hno b), (iteration_of_elem _ _ _ Hit),
        elem_of_set_difference. right. split; congruence.
  - intros Heq v Hin.
    apply (iteration_of_elem _ _ _ Hit), elem_of_set_difference in Hin.
    destruct Hin as [[? ?]|[? ?]]; congruence.
Qed.

(** A call on an analyzer whose maps were built returns, and what it
    returns is the loop run over an iteration of the set. *)
Lemma compare_loaded_inv original current f1 f2 p out :
  compare (loaded original current) f1 f2 p out →
  ∃ order, iteration_of (set_difference original current) order
           ∧ out = Return (collect order).
Proof.
  intros Hcall.
  inversion Hcall as [o c order Ho Hc Hit|[Hn|Hn]]; simpl in *; simplify_eq.
  by exists order.
Qed.

Lemma compare_loaded_intro original current f1 f2 p order :
  iteration_of (set_difference original current) order →
  compare (loaded original current) f1 f2 p (Return (collect order)).
Proof. intros Hit. by eapply compare_return. Qed.

Lemma compare_loaded_total original current f1 f2 p :
  ∃ result_set,
    compare (loaded original current) f1 f2 p (Return result_set).
Proof.
  eexists. apply compare_loaded_intro, iteration_of_elements.
Qed.

End compare_loop.

(** ** Lemmas on the [str] methods and on the parser *)

Section parser.

Import PyStr Analyzer.

Lemma split_no_occurrence sep s : occurs sep s = false → split sep s = [s].
Proof.
  induction s as [|c r IH]; simpl; [done|].
  intros [Hc Hr]%orb_false_elim. rewrite Hc, (IH Hr). done.
Qed.

Lemma split_occurrence sep s :
  occurs sep s = true → ∃ f g fields, split sep s = f :: g :: fields.
Proof.
  induction s as [|c r IH]; simpl; [done|].
  destruct (Ascii.eqb c sep) eqn:Hc; simpl.
  - intros _. destruct (occurs sep r) eqn:Hr.
    + destruct (IH eq_refl) as (f & g & fields & ->). eauto.
    + rewrite (split_no_occurrence _ _ Hr). eauto.
  - intros Hr. destruct (IH Hr) as (f & g & fields & ->). eauto.
Qed.

Lemma split_hd sep s : List.hd EmptyString (split sep s) = before_first sep s.
Proof.
  induction s as [|c r IH]; simpl; [done|].
  destruct (Ascii.eqb c sep); [done|].
  destruct (split sep r) as [|f fields]; simpl in *; by rewrite <- IH.
Qed.

Lemma split_last sep s :
  List.last (split sep s) EmptyString = after_last sep s.
Proof.
  induction s as [|c r IH]; [done|].
  cbn [split after_last].
  destruct (occurs sep r) eqn:Hr.
  - destruct (split_occurrence _ _ Hr) as (f & g & fields & Hs).
    rewrite Hs in *. by destruct (Ascii.eqb c sep).
  - rewrite (split_no_occurrence _ _ Hr). by destruct (Ascii.eqb c sep).
Qed.

Lemma split_nonempty sep s : split sep s ≠ [].
Proof.
  destruct s as [|c r]; simpl; [done|].
  destruct (Ascii.eqb c sep); [done|]. by destruct (split sep r).
Qed.

Lemma join_cons sep field rest :
  rest ≠ [] → join sep (field :: rest) = field +:+ sep +:+ join sep rest.
Proof. by destruct rest. Qed.

Lemma join_split sep s : join (String sep EmptyString) (split sep s) = s.
Proof.
  induction s as [|c r IH]; [done|].
  pose proof (split_nonempty sep r) as Hne.
  cbn [split].
  destruct (Ascii.eqb c sep) eqn:Hc.
  - apply Ascii.eqb_eq in Hc as ->.
    rewrite join_cons, IH by done. done.
  - destruct (split sep r) as [|f [|g fields]]; [done| |].
    + simpl in *. by rewrite IH.
    + rewrite join_cons in * by done. by rewrite <- IH.
Qed.

Lemma all_space_no_occurrence sep s :
  isspace sep = false → all_space s = true → occurs sep s = false.
Proof.
  intros Hsep. induction s as [|c r IH]; simpl; [done|].
  intros [Hc Hr]%andb_prop. rewrite (IH Hr), orb_false_r.
  apply Ascii.eqb_neq. intros ->. congruence.
Qed.

Lemma all_space_lstrip s : all_space s = true → lstrip s = EmptyString.
Proof.
  induction s as [|c r IH]; simpl; [done|].
  intros [Hc Hr]%andb_prop. by rewrite Hc, IH.
Qed.

Lemma all_space_strip s : all_space s = true → strip s = EmptyString.
Proof. intros Hs. unfold strip. by rewrite all_space_lstrip. Qed.

(** The key and the value of a line in terms of its record body. *)
Lemma parse_line_body line :
  parse_line line =
  let body := after_last ">" line in
  let current_file_name := strip (before_first "|" body) +:+ "|" in
  (current_file_name, replace current_file_name "" (strip body)).
Proof.
  unfold parse_line. by rewrite split_last, split_hd, join_split.
Qed.

Lemma parse_line_blank line :
  all_space line = true → parse_line line = ("|", "").
Proof.
  intros Hb. rewrite parse_line_body. cbn zeta.
  assert (after_last ">" line = line) as ->.
  { rewrite <- split_last, split_no_occurrence; [done|].
    by apply all_space_no_occurrence. }
  assert (before_first "|" line = line) as ->.
  { rewrite <- split_hd, split_no_occurrence; [done|].
    by apply all_space_no_occurrence. }
  by rewrite all_space_strip.
Qed.

(** The loop of [_build_map]: an entry, once stored, is only ever
    overwritten, and the last line stored under a key decides its value. *)
Lemma foldl_store_line_keeps lines hash_map k :
  is_Some (hash_map !! k) → is_Some (foldl store_line hash_map lines !! k).
Proof.
  revert hash_map. induction lines as [|l rest IH]; intros hash_map Hk; [done|].
  simpl. apply IH. unfold store_line.
  destruct (decide ((parse_line l).1 = k)) as [<-|Hne].
  - rewrite lookup_insert_eq. eauto.
  - by rewrite lookup_insert_ne.
Qed.

Lemma foldl_store_line_is_Some lines hash_map line :
  line ∈ lines →
  is_Some (foldl store_line hash_map lines !! (parse_line line).1).
Proof.
  revert hash_map. induction lines as [|l rest IH]; intros hash_map Hin.
  - by apply elem_of_nil in Hin.
  - simpl. apply elem_of_cons in Hin as [->|Hin]; [|by apply IH].
    apply foldl_store_line_keeps. unfold store_line.
    rewrite lookup_insert_eq. eauto.
Qed.

Lemma foldl_store_line_other lines hash_map k :
  (∀ l, l ∈ lines → (parse_line l).1 ≠ k) →
  foldl store_line hash_map lines !! k = hash_map !! k.
Proof.
  revert hash_map. induction lines as [|l rest IH]; intros hash_map Hk; [done|].
  simpl. rewrite IH.
  - unfold store_line. apply lookup_insert_ne, Hk, elem_of_cons. by left.
  - intros l' Hl'. apply Hk, elem_of_cons. by right.
Qed.

Lemma build_lines_last_wins before line after :
  (∀ l, l ∈ after → (parse_line l).1 ≠ (parse_line line).1) →
  build_lines (before ++ line :: after) !! (parse_line line).1
  = Some (parse_line line).2.
Proof.
  intros Hafter. unfold build_lines. rewrite foldl_app. simpl.
  rewrite foldl_store_line_other by done.
  unfold store_line. apply lookup_insert_eq.
Qed.

End parser.

(** ** The comparison *)

Section comparison.

Import Analyzer.

(** C4. A key that has the same value in both maps is not in the
    dictionary [compare] returns, and [compare] on two equal maps returns
    the empty dictionary; on an analyzer whose two maps were built the call
    always returns. *)
Theorem compare_skips_equal_values original current f1 f2 p :
  (∃ result_set,
     compare (loaded original current) f1 f2 p (Return result_set))
  ∧ ∀ out, compare (loaded original current) f1 f2 p out →
      ∃ result_set, out = Return result_set
        ∧ (∀ k v, original !! k = Some v → current !! k = Some v →
                  result_set !! k = None)
        ∧ (original = current → result_set = ∅).
Proof.
  split; [apply compare_loaded_total|].
  intros out (order & Hit & ->)%compare_loaded_inv.
  eexists; split; [done|]. split.
  - intros k v Ho Hc. apply (collect_lookup_None _ _ _ _ Hit). congruence.
  - intros <-. apply map_eq. intros k.
    rewrite lookup_empty. by apply (collect_lookup_None _ _ _ _ Hit).
Qed.

(** C1, as the code has it. For a key present in both maps with different
    values the returned dictionary has one entry, and the entry holds one
    value: the original one or the current one. Whatever the order in which
    the set yields its tuples, the value is that of the first tuple with the
    key in that order, no tuple before it having the key; and each of the
    two values is what some order leaves there. *)
Theorem compare_changed_key_one_value original current k a b f1 f2 p :
  original !! k = Some a → current !! k = Some b → a ≠ b →
  (∀ out, compare (loaded original current) f1 f2 p out →
     ∃ result_set, out = Return result_set
       ∧ (result_set !! k = Some a ∨ result_set !! k = Some b))
  ∧ (∀ order,
       iteration_of (set_difference original current) order →
       compare (loaded original current) f1 f2 p (Return (collect order))
       ∧ ∃ before v after,
           order = before ++ (k, v) :: after
           ∧ (∀ w, (k, w) ∉ before)
           ∧ collect order !! k = Some v)
  ∧ (∀ out, compare (loaded original current) f1 f2 p out →
       ∃ order, iteration_of (set_difference original current) order
                ∧ out = Return (collect order))
  ∧ (∃ result_set,
       compare (loaded original current) f1 f2 p (Return result_set)
       ∧ result_set !! k = Some a)
  ∧ (∃ result_set,
       compare (loaded original current) f1 f2 p (Return result_set)
       ∧ result_set !! k = Some b).
Proof.
  intros Ho Hc Hne.
  assert (Hsome : ∀ order,
            iteration_of (set_difference original current) order →
            ∃ v, collect order !! k = Some v ∧ (v = a ∨ v = b)).
  { intros order Hit. destruct (collect order !! k) as [v|] eqn:Hv.
    - exists v. split; [done|].
      apply (collect_lookup_Some _ _ _ _ _ Hit) in Hv as [[? _]|[? _]];
        [left | right]; congruence.
    - apply (collect_lookup_None _ _ _ _ Hit) in Hv. congruence. }
  split; [|split; [|split; [|split]]].
  - intros out (order & Hit & ->)%compare_loaded_inv.
    eexists; split; [done|].
    destruct (Hsome order Hit) as (v & -> & [-> | ->]); auto.
  - intros order Hit. split; [by apply compare_loaded_intro|].
    destruct (Hsome order Hit) as (v & Hv & _).
    pose proof Hv as Hfirst. rewrite collect_lookup in Hfirst.
    apply first_value_split in Hfirst as (before & after & -> & Hno).
    by exists before, v, after.
  - intros out (order & Hit & ->)%compare_loaded_inv. by exists order.
  - eexists. split.
    + apply compare_loaded_intro, (iteration_of_first _ (k, a)).
      apply elem_of_set_difference. left. split; congruence.
    + by rewrite collect_lookup, first_value_cons.
  - eexists. split.
    + apply compare_loaded_intro, (iteration_of_first _ (k, b)).
      apply elem_of_set_difference. right. split; congruence.
    + by rewrite collect_lookup, first_value_cons.
Qed.

(** C2, as the code has it. A key present in exactly one of the maps has an
    entry in the returned dictionary, and the entry holds that map's value.
    The entry says nothing else: the same dictionary is a result of the call
    with the two maps exchanged. *)
Theorem compare_one_sided_key original current k v f1 f2 p out :
  (original !! k = None ∧ current !! k = Some v)
  ∨ (original !! k = Some v ∧ current !! k = None) →
  compare (loaded original current) f1 f2 p out →
  ∃ result_set, out = Return result_set
    ∧ result_set !! k = Some v
    ∧ compare (loaded current original) f1 f2 p (Return result_set).
Proof.
  intros Hside (order & Hit & ->)%compare_loaded_inv.
  eexists; split; [done|]. split.
  - destruct (collect order !! k) as [w|] eqn:Hw.
    + apply (collect_lookup_Some _ _ _ _ _ Hit) in Hw.
      destruct Hside as [[? ?]|[? ?]], Hw as [[? ?]|[? ?]]; congruence.
    + apply (collect_lookup_None _ _ _ _ Hit) in Hw.
      destruct Hside as [[? ?]|[? ?]]; congruence.
  - apply compare_loaded_intro. by rewrite set_difference_comm.
Qed.

(** C3, as the code has it. Two runs of [compare] on the same pair of maps
    return dictionaries with the same keys, and with the same value under
    every key that is not in both maps with two different values. *)
Theorem compare_keys_deterministic original current
    f1 f2 p f1' f2' p' out1 out2 :
  compare (loaded original current) f1 f2 p out1 →
  compare (loaded original current) f1' f2' p' out2 →
  ∃ r1 r2, out1 = Return r1 ∧ out2 = Return r2
    ∧ dom r1 = dom r2
    ∧ ∀ k, original !! k = None ∨ current !! k = None
           ∨ original !! k = current !! k →
           r1 !! k = r2 !! k.
Proof.
  intros (order1 & Hit1 & ->)%compare_loaded_inv
         (order2 & Hit2 & ->)%compare_loaded_inv.
  do 2 eexists. split; [done|]. split; [done|]. split.
  - apply set_eq. intros k. rewrite !elem_of_dom, <- !not_eq_None_Some.
    by rewrite (collect_lookup_None _ _ _ _ Hit1),
      (collect_lookup_None _ _ _ _ Hit2).
  - intros k Hk.
    destruct (collect order1 !! k) as [v1|] eqn:H1,
             (collect order2 !! k) as [v2|] eqn:H2; [| | |done].
    + apply (collect_lookup_Some _ _ _ _ _ Hit1) in H1.
      apply (collect_lookup_Some _ _ _ _ _ Hit2) in H2.
      destruct Hk as [?|[?|?]], H1 as [[? ?]|[? ?]], H2 as [[? ?]|[? ?]];
        congruence.
    + apply (collect_lookup_None _ _ _ _ Hit2) in H2.
      apply (collect_lookup_None _ _ _ _ Hit1) in H2. congruence.
    + apply (collect_lookup_None _ _ _ _ Hit1) in H1.
      apply (collect_lookup_None _ _ _ _ Hit2) in H1. congruence.
Qed.

(** C5, as the code has it. [compare] in the two directions returns
    dictionaries with the same keys; a key present in exactly one map has
    that map's value in both; a key present in both maps with different
    values has, in each direction, one of the two values; and whatever one
    direction returns the other can return too. *)
Theorem compare_directions A B f1 f2 p out1 out2 :
  compare (loaded A B) f1 f2 p out1 →
  compare (loaded B A) f1 f2 p out2 →
  ∃ r1 r2, out1 = Return r1 ∧ out2 = Return r2
    ∧ dom r1 = dom r2
    ∧ (∀ k v, (A !! k = None ∧ B !! k = Some v)
              ∨ (A !! k = Some v ∧ B !! k = None) →
              r1 !! k = Some v ∧ r2 !! k = Some v)
    ∧ (∀ k a b, A !! k = Some a → B !! k = Some b → a ≠ b →
                (r1 !! k = Some a ∨ r1 !! k = Some b)
                ∧ (r2 !! k = Some a ∨ r2 !! k = Some b))
    ∧ compare (loaded B A) f1 f2 p (Return r1)
    ∧ compare (loaded A B) f1 f2 p (Return r2).
Proof.
  intros (order1 & Hit1 & ->)%compare_loaded_inv
         (order2 & Hit2 & ->)%compare_loaded_inv.
  assert (Hit2' := Hit2). rewrite set_difference_comm in Hit2'.
  assert (Hval : ∀ order k,
             iteration_of (set_difference A B) order →
             A !! k ≠ B !! k →
             ∃ w, collect order !! k = Some w
                  ∧ (A !! k = Some w ∨ B !! k = Some w)).
  { intros order k Hit Hk.
    destruct (collect order !! k) as [w|] eqn:Hw.
    - exists w. split; [done|].
      apply (collect_lookup_Some _ _ _ _ _ Hit) in Hw. tauto.
    - by apply (collect_lookup_None _ _ _ _ Hit) in Hw. }
  assert (Hside_ne : ∀ k v,
             (A !! k = None ∧ B !! k = Some v)
             ∨ (A !! k = Some v ∧ B !! k = None) → A !! k ≠ B !! k).
  { intros k v [[? ?]|[? ?]]; congruence. }
  do 2 eexists. split; [done|]. split; [done|].
  split; [|split; [|split; [|split]]].
  - apply set_eq. intros k. rewrite !elem_of_dom, <- !not_eq_None_Some.
    by rewrite (collect_lookup_None _ _ _ _ Hit1),
      (collect_lookup_None _ _ _ _ Hit2').
  - intros k v Hside.
    destruct (Hval order1 k Hit1 (Hside_ne k v Hside)) as (w1 & -> & Hw1).
    destruct (Hval order2 k Hit2' (Hside_ne k v Hside)) as (w2 & -> & Hw2).
    destruct Hside as [[? ?]|[? ?]], Hw1, Hw2; split; congruence.
  - intros k a b Ha Hb Hne.
    destruct (Hval order1 k Hit1) as (w1 & -> & Hw1); [congruence|].
    destruct (Hval order2 k Hit2') as (w2 & -> & Hw2); [congruence|].
    split; [destruct Hw1 | destruct Hw2]; [left | right | left | right];
      congruence.
  - apply compare_loaded_intro. by rewrite set_difference_comm.
  - by apply compare_loaded_intro.
Qed.

(** C10. What [compare] returns does not depend on the two file names and
    the flag it is called with. *)
Theorem compare_ignores_arguments self f1 f2 p f1' f2' p' out :
  compare self f1 f2 p out ↔ compare self f1' f2' p' out.
Proof.
  split; intros Hcall;
    (inversion Hcall as [o c order Ho Hc Hit|Hn];
     [by eapply compare_return | by apply compare_raise]).
Qed.

End comparison.

(** ** The parser *)

Section parsing.

Import PyStr Analyzer.

Lemma after_last_no_occurrence sep s : occurs sep (after_last sep s) = false.
Proof.
  induction s as [|c r IH]; simpl; [done|].
  destruct (occurs sep r) eqn:Hr; [done|].
  destruct (Ascii.eqb c sep) eqn:Hc; [done|]. simpl. by rewrite Hc, Hr.
Qed.

Lemma after_last_whole sep s : occurs sep s = false → after_last sep s = s.
Proof.
  destruct s as [|c r]; simpl; [done|].
  intros [Hc Hr]%orb_false_elim. by rewrite Hr, Hc.
Qed.

Lemma after_last_suffix sep s :
  occurs sep s = true → ∃ prefix, s = prefix +:+ String sep (after_last sep s).
Proof.
  induction s as [|c r IH]; simpl; [done|].
  destruct (occurs sep r) eqn:Hr.
  - intros _. destruct (IH eq_refl) as [prefix Hp].
    exists (String c prefix).
    change (String c r = String c (prefix +:+ String sep (after_last sep r))).
    by f_equal.
  - rewrite orb_false_r. intros Hc. rewrite Hc.
    apply Ascii.eqb_eq in Hc as ->. by exists EmptyString.
Qed.

(** The loop body of [_build_map] by the record body of the line: what
    follows its last [>], or the whole line when it has none; the fields
    joined again are that body. *)
Lemma parse_line_key_and_value line :
  let body := after_last ">" line in
  let current_file_data := split "|" body in
  let current_file_name := strip (List.hd EmptyString current_file_data) +:+ "|" in
  occurs ">" body = false
  ∧ (line = body ∨ ∃ prefix, line = prefix +:+ String ">" body)
  ∧ List.hd EmptyString current_file_data = before_first "|" body
  ∧ join "|" current_file_data = body
  ∧ parse_line line
    = (current_file_name, replace current_file_name "" (strip body)).
Proof.
  cbn zeta. split; [apply after_last_no_occurrence|]. split; [|split; [|split]].
  - destruct (occurs ">" line) eqn:Hgt.
    + right. by apply after_last_suffix.
    + left. by rewrite after_last_whole.
  - apply split_hd.
  - apply join_split.
  - by rewrite parse_line_body, split_hd.
Qed.

(** C7, as the code has it. Every line of a readable file, with or without
    a [>] and with or without a key, leaves an entry under its key in the
    map that [_build_map] returns; a line without [>] is its own record
    body, and a line without key text is stored under the bare delimiter. *)
Theorem build_map_stores_every_line fs filename content line :
  fs !! filename = Some (File content) →
  line ∈ readlines content →
  ∃ hash_map,
    (_build_map fs filename).2 = Some hash_map
    ∧ is_Some (hash_map !! (parse_line line).1)
    ∧ (occurs ">" line = false →
       parse_line line
       = (strip (before_first "|" line) +:+ "|",
          replace (strip (before_first "|" line) +:+ "|") "" (strip line)))
    ∧ (strip (before_first "|" (after_last ">" line)) = "" →
       (parse_line line).1 = "|").
Proof.
  intros Hfile Hline. unfold _build_map. rewrite Hfile.
  eexists. split; [reflexivity|]. split; [|split].
  - by apply foldl_store_line_is_Some.
  - intros Hgt. by rewrite parse_line_body, after_last_whole.
  - intros Hkey. by rewrite parse_line_body; cbn zeta; rewrite Hkey.
Qed.

(** C8, as the code has it. A blank line is not skipped: it stores the
    empty value under the key made of the bare delimiter, and the entry is
    in the returned map unless a later line overwrites it. *)
Theorem build_map_stores_blank_line fs filename content before line after :
  fs !! filename = Some (File content) →
  readlines content = before ++ line :: after →
  all_space line = true →
  (∀ l, l ∈ after → (parse_line l).1 ≠ "|") →
  ∃ hash_map,
    (_build_map fs filename).2 = Some hash_map ∧ hash_map !! "|" = Some "".
Proof.
  intros Hfile Hlines Hblank Hafter. unfold _build_map.
  rewrite Hfile, Hlines. eexists. split; [reflexivity|].
  pose proof (parse_line_blank line Hblank) as Hparse.
  pose proof (build_lines_last_wins before line after) as Hlast.
  rewrite Hparse in Hlast. by apply Hlast.
Qed.

(** C9. When one of the two paths does not exist, the construction of the
    analyzer logs one error and ends in [sys.exit(2)]: there is no analyzer,
    and so no map. *)
Theorem init_missing_path fs original_map_file current_map_file :
  fs !! original_map_file = None ∨ fs !! current_map_file = None →
  ∃ message,
    __init__ fs original_map_file current_map_file
    = ([(ERROR, message)], SystemExit 2).
Proof.
  intros Hmissing. unfold __init__, exists_path.
  destruct (fs !! original_map_file) as [n1|] eqn:H1.
  - destruct Hmissing as [?|H2]; [done|]. rewrite H2.
    rewrite bool_decide_eq_true_2 by eauto.
    rewrite bool_decide_eq_false_2 by (by intros [? ?]). simpl. eauto.
  - rewrite bool_decide_eq_false_2 by (by intros [? ?]). simpl. eauto.
Qed.

End parsing.


(** ** The properties on the sample data *)

Section samples.

Import PyStr Analyzer.

(** The line of the first scenario: its key and its value. *)
Example parse_hosts_line : parse_line hosts_line = (hosts_key, hosts_original).
Proof. vm_compute. reflexivity. Qed.

(** The same map on both sides: the set is empty and so is the result. *)
Example compare_hosts_unchanged out :
  compare (loaded original_hosts original_hosts) "original.map" "current.map"
    false out →
  out = Return ∅.
Proof.
  intros (order & [_ Hset] & ->)%compare_loaded_inv.
  destruct order as [|e rest]; [done|].
  exfalso. apply (not_elem_of_empty (C:=gset (string * string)) e).
  assert (set_difference original_hosts original_hosts = ∅) as <-
    by (vm_compute; reflexivity).
  rewrite <- Hset. apply elem_of_list_to_set, elem_of_cons. by left.
Qed.

(** C1 at the changed checksum of the second scenario. *)
Lemma compare_changed_key_one_value_witness :
  (∀ out,
     compare (loaded original_hosts current_hosts)
       "original.map" "current.map" false out →
     ∃ result_set, out = Return result_set
       ∧ (result_set !! hosts_key = Some hosts_original
          ∨ result_set !! hosts_key = Some hosts_current))
  ∧ (∀ order,
       iteration_of (set_difference original_hosts current_hosts) order →
       compare (loaded original_hosts current_hosts)
         "original.map" "current.map" false (Return (collect order))
       ∧ ∃ before v after,
           order = before ++ (hosts_key, v) :: after
           ∧ (∀ w, (hosts_key, w) ∉ before)
           ∧ collect order !! hosts_key = Some v)
  ∧ (∀ out,
       compare (loaded original_hosts current_hosts)
         "original.map" "current.map" false out →
       ∃ order,
         iteration_of (set_difference original_hosts current_hosts) order
         ∧ out = Return (collect order))
  ∧ (∃ result_set,
       compare (loaded original_hosts current_hosts)
         "original.map" "current.map" false (Return result_set)
       ∧ result_set !! hosts_key = Some hosts_original)
  ∧ (∃ result_set,
       compare (loaded original_hosts current_hosts)
         "original.map" "current.map" false (Return result_set)
       ∧ result_set !! hosts_key = Some hosts_current).
Proof.
  apply (compare_changed_key_one_value original_hosts current_hosts
           hosts_key hosts_original hosts_current).
  - vm_compute. reflexivity.
  - vm_compute. reflexivity.
  - vm_compute. discriminate.
Defined.

(** C1 as stated fails on the second scenario: one run returns the entry
    with the original value and without the current one, another run the
    entry with the current value and without the original one. *)
Lemma compare_changed_key_counterexample :
  ∃ r1 r2,
    compare (loaded original_hosts current_hosts)
      "original.map" "current.map" false (Return r1)
    ∧ compare (loaded original_hosts current_hosts)
        "original.map" "current.map" false (Return r2)
    ∧ r1 !! hosts_key = Some hosts_original
    ∧ r1 !! hosts_key ≠ Some hosts_current
    ∧ r2 !! hosts_key = Some hosts_current
    ∧ r2 !! hosts_key ≠ Some hosts_original.
Proof.
  exists (collect [(hosts_key, hosts_original); (hosts_key, hosts_current)]),
         (collect [(hosts_key, hosts_current); (hosts_key, hosts_original)]).
  split; [|split].
  - apply compare_loaded_intro. split; compute_done.
  - apply compare_loaded_intro. split; compute_done.
  - repeat split; vm_compute; congruence.
Qed.

(** C2 at the added file of the third scenario. *)
Lemma compare_one_sided_key_witness :
  ∃ result_set,
    Return (collect [(new_key, new_value)]) = Return result_set
    ∧ result_set !! new_key = Some new_value
    ∧ compare (loaded new_map ∅) "original.map" "current.map" false
        (Return result_set).
Proof.
  apply (compare_one_sided_key ∅ new_map new_key new_value
           "original.map" "current.map" false
           (Return (collect [(new_key, new_value)]))).
  - left. split; vm_compute; reflexivity.
  - apply compare_loaded_intro.
    split; apply (bool_decide_unpack _); vm_compute; reflexivity.
Defined.

(** C2 as stated fails on the third scenario: a file that was added and the
    same file removed give the same dictionary, so that nothing read off the
    result can tell the one kind from the other. *)
Lemma compare_kind_counterexample :
  ¬ ∃ kind_of : gmap string string → string → kind,
      (∀ result_set,
         compare (loaded ∅ new_map) "original.map" "current.map" false
           (Return result_set) →
         kind_of result_set new_key = Added)
      ∧ (∀ result_set,
           compare (loaded new_map ∅) "original.map" "current.map" false
             (Return result_set) →
           kind_of result_set new_key = Removed).
Proof.
  intros (kind_of & Hadded & Hremoved).
  assert (kind_of (collect [(new_key, new_value)]) new_key = Added) as Ha.
  { apply Hadded, compare_loaded_intro. split; compute_done. }
  assert (kind_of (collect [(new_key, new_value)]) new_key = Removed) as Hr.
  { apply Hremoved, compare_loaded_intro. split; compute_done. }
  congruence.
Qed.

(** C3 on two runs over the maps of the second scenario. *)
Lemma compare_keys_deterministic_witness :
  ∃ r1 r2,
    Return (collect [(hosts_key, hosts_original); (hosts_key, hosts_current)])
    = Return r1
    ∧ Return (collect [(hosts_key, hosts_current); (hosts_key, hosts_original)])
      = Return r2
    ∧ dom r1 = dom r2
    ∧ ∀ k, original_hosts !! k = None ∨ current_hosts !! k = None
           ∨ original_hosts !! k = current_hosts !! k →
           r1 !! k = r2 !! k.
Proof.
  apply (compare_keys_deterministic original_hosts current_hosts
           "original.map" "current.map" false
           "original.map" "current.map" false
           (Return (collect [(hosts_key, hosts_original);
                             (hosts_key, hosts_current)]))
           (Return (collect [(hosts_key, hosts_current);
                             (hosts_key, hosts_original)]))).
  - apply compare_loaded_intro.
    split; apply (bool_decide_unpack _); vm_compute; reflexivity.
  - apply compare_loaded_intro.
    split; apply (bool_decide_unpack _); vm_compute; reflexivity.
Defined.

(** C3 as stated fails: with one file changed and one file added, two runs
    return two different dictionaries. *)
Lemma compare_deterministic_counterexample :
  ∃ r1 r2,
    compare (loaded original_hosts (current_hosts ∪ new_map))
      "original.map" "current.map" false (Return r1)
    ∧ compare (loaded original_hosts (current_hosts ∪ new_map))
        "original.map" "current.map" false (Return r2)
    ∧ r1 ≠ r2.
Proof.
  exists (collect [(hosts_key, hosts_original); (new_key, new_value);
                   (hosts_key, hosts_current)]),
         (collect [(hosts_key, hosts_current); (new_key, new_value);
                   (hosts_key, hosts_original)]).
  split; [|split].
  - apply compare_loaded_intro. split; compute_done.
  - apply compare_loaded_intro. split; compute_done.
  - intros Heq. apply (f_equal (λ r, r !! hosts_key)) in Heq.
    vm_compute in Heq. discriminate.
Qed.

(** C5 on the maps of the second scenario, taken in both directions. *)
Lemma compare_directions_witness :
  ∃ r1 r2,
    Return (collect [(hosts_key, hosts_original); (hosts_key, hosts_current)])
    = Return r1
    ∧ Return (collect [(hosts_key, hosts_current); (hosts_key, hosts_original)])
      = Return r2
    ∧ dom r1 = dom r2
    ∧ (∀ k v, (original_hosts !! k = None ∧ current_hosts !! k = Some v)
              ∨ (original_hosts !! k = Some v ∧ current_hosts !! k = None) →
              r1 !! k = Some v ∧ r2 !! k = Some v)
    ∧ (∀ k a b, original_hosts !! k = Some a → current_hosts !! k = Some b →
                a ≠ b →
                (r1 !! k = Some a ∨ r1 !! k = Some b)
                ∧ (r2 !! k = Some a ∨ r2 !! k = Some b))
    ∧ compare (loaded current_hosts original_hosts)
        "original.map" "current.map" false (Return r1)
    ∧ compare (loaded original_hosts current_hosts)
        "original.map" "current.map" false (Return r2).
Proof.
  apply (compare_directions original_hosts current_hosts
           "original.map" "current.map" false
           (Return (collect [(hosts_key, hosts_original);
                             (hosts_key, hosts_current)]))
           (Return (collect [(hosts_key, hosts_current);
                             (hosts_key, hosts_original)]))).
  - apply compare_loaded_intro.
    split; apply (bool_decide_unpack _); vm_compute; reflexivity.
  - apply compare_loaded_intro.
    split; apply (bool_decide_unpack _); vm_compute; reflexivity.
Defined.

(** C5 as stated fails on the second scenario: the two directions can
    return the very same entry for the changed file, holding the value of the
    first map and not that of the second, so that nothing is exchanged
    between them. *)
Lemma compare_swap_counterexample :
  ∃ result_set,
    compare (loaded original_hosts current_hosts)
      "original.map" "current.map" false (Return result_set)
    ∧ compare (loaded current_hosts original_hosts)
        "current.map" "original.map" false (Return result_set)
    ∧ result_set !! hosts_key = Some hosts_original
    ∧ result_set !! hosts_key ≠ Some hosts_current.
Proof.
  exists (collect [(hosts_key, hosts_original); (hosts_key, hosts_current)]).
  split; [|split].
  - apply compare_loaded_intro. split; compute_done.
  - apply compare_loaded_intro. split; compute_done.
  - split; vm_compute; congruence.
Qed.

(** C6 at a line whose path comes back in a later field. The value is to
    be the fields after the key, joined with [|], with the key text taken
    from its front only. The code takes the key text out wherever it stands:
    the later field loses its end and is glued to the field after it. *)
Lemma parse_line_counterexample :
  parse_line bin_line = ("/bin|", "7|/usr0755")
  ∧ spec_parse_line bin_line = ("/bin|", "7|/usr/bin|0755").
Proof. split; vm_compute; reflexivity. Qed.

(** C7 on the file with a line without [>]. *)
Lemma build_map_stores_every_line_witness :
  ∃ hash_map,
    (_build_map {[ "current.map" := File unseparated_content ]}
       "current.map").2 = Some hash_map
    ∧ is_Some (hash_map !! (parse_line ("/etc/hosts|4096|d41d" +:+ String LF "")).1)
    ∧ (occurs ">" ("/etc/hosts|4096|d41d" +:+ String LF "") = false →
       parse_line ("/etc/hosts|4096|d41d" +:+ String LF "")
       = (strip (before_first "|" ("/etc/hosts|4096|d41d" +:+ String LF ""))
            +:+ "|",
          replace
            (strip (before_first "|" ("/etc/hosts|4096|d41d" +:+ String LF ""))
               +:+ "|") ""
            (strip ("/etc/hosts|4096|d41d" +:+ String LF ""))))
    ∧ (strip (before_first "|"
                (after_last ">" ("/etc/hosts|4096|d41d" +:+ String LF "")))
       = "" →
       (parse_line ("/etc/hosts|4096|d41d" +:+ String LF "")).1 = "|").
Proof.
  apply (build_map_stores_every_line
           {[ "current.map" := File unseparated_content ]} "current.map"
           unseparated_content).
  - vm_compute. reflexivity.
  - apply (bool_decide_unpack _). vm_compute. reflexivity.
Defined.

(** C7 as stated fails: the line without [>] and the line without key text
    are both in the returned map, no error is logged and nothing aborts. *)
Lemma build_map_malformed_counterexample :
  _build_map {[ "current.map" := File unseparated_content ]} "current.map"
  = ([(INFO, "Building system map for: 'current.map'")],
     Some {[ "/etc/hosts|" := "4096|d41d"; "|" := "4096" ]}).
Proof. compute_done. Qed.

(** C8 on the file that ends with a blank line. *)
Lemma build_map_stores_blank_line_witness :
  ∃ hash_map,
    (_build_map {[ "current.map" := File blank_content ]} "current.map").2
    = Some hash_map
    ∧ hash_map !! "|" = Some "".
Proof.
  apply (build_map_stores_blank_line
           {[ "current.map" := File blank_content ]} "current.map"
           blank_content [hosts_line +:+ String LF ""] (String LF "") []).
  - vm_compute. reflexivity.
  - vm_compute. reflexivity.
  - vm_compute. reflexivity.
  - intros l Hl. by apply elem_of_nil in Hl.
Defined.

(** C8 as stated fails: the blank line at the end of the file is the only
    line that gives the entry under the bare delimiter, and the entry is in
    the returned map. *)
Lemma build_map_blank_counterexample :
  (_build_map {[ "current.map" := File blank_content ]} "current.map").2
  = Some {[ hosts_key := hosts_original; "|" := "" ]}
  ∧ readlines blank_content = [hosts_line +:+ String LF ""; String LF ""]
  ∧ build_lines [hosts_line +:+ String LF ""] !! "|" = None.
Proof. repeat split; compute_done. Qed.

(** C9 with the current map file missing. *)
Lemma init_missing_path_witness :
  ∃ message,
    __init__ {[ "original.map" := File blank_content ]}
      "original.map" "current.map"
    = ([(ERROR, message)], SystemExit 2).
Proof.
  apply (init_missing_path {[ "original.map" := File blank_content ]}
           "original.map" "current.map").
  right. vm_compute. reflexivity.
Defined.

End samples.

(** ** More on the [str] methods *)

Section strings.

Import PyStr.

Lemma occurs_app c a b : occurs c (a +:+ b) = occurs c a || occurs c b.
Proof.
  induction a as [|x a IH]; simpl; [done|]. by rewrite IH, orb_assoc.
Qed.

Lemma before_first_app sep a b :
  occurs sep a = false → before_first sep (a +:+ String sep b) = a.
Proof.
  induction a as [|x a IH]; simpl.
  - by rewrite Ascii.eqb_refl.
  - intros [Hx Ha]%orb_false_elim. by rewrite Hx, IH.
Qed.

Lemma after_last_app sep a b :
  occurs sep b = false → after_last sep (a +:+ String sep b) = b.
Proof.
  intros Hb. induction a as [|x a IH]; simpl.
  - by rewrite Hb, Ascii.eqb_refl.
  - by rewrite occurs_app; simpl; rewrite Ascii.eqb_refl, orb_true_r.
Qed.

Lemma before_first_no_occurrence sep s :
  occurs sep (before_first sep s) = false.
Proof.
  induction s as [|c r IH]; simpl; [done|].
  destruct (Ascii.eqb c sep) eqn:Hc; simpl; [done|]. by rewrite Hc.
Qed.

Lemma occurs_before_first c sep s :
  occurs c (before_first sep s) = true → occurs c s = true.
Proof.
  induction s as [|x r IH]; simpl; [done|].
  destruct (Ascii.eqb x sep); simpl; [done|].
  intros [->|Hr]%orb_prop; [done|]. by rewrite IH, orb_true_r.
Qed.

Lemma occurs_lstrip c s : occurs c (lstrip s) = true → occurs c s = true.
Proof.
  induction s as [|x r IH]; simpl; [done|].
  destruct (isspace x); [|done]. intros Hr. by rewrite IH, orb_true_r.
Qed.

Lemma occurs_rstrip c s : occurs c (rstrip s) = true → occurs c s = true.
Proof.
  induction s as [|x r IH]; simpl; [done|].
  destruct (rstrip r) as [|y r'] eqn:Hr.
  - destruct (isspace x); simpl; [done|]. by rewrite orb_false_r; intros ->.
  - cbn [occurs]. intros [->|Hy]%orb_prop; [done|]. by rewrite IH, orb_true_r.
Qed.

Lemma occurs_strip c s : occurs c (strip s) = true → occurs c s = true.
Proof. intros Hs. by apply occurs_lstrip, occurs_rstrip. Qed.

Lemma lstrip_app_space w s : all_space w = true → lstrip (w +:+ s) = lstrip s.
Proof.
  induction w as [|x w IH]; simpl; [done|].
  intros [Hx Hw]%andb_prop. by rewrite Hx, IH.
Qed.

Lemma lstrip_head s :
  lstrip s = EmptyString
  ∨ ∃ c r, lstrip s = String c r ∧ isspace c = false.
Proof.
  induction s as [|x r IH]; simpl; [by left|].
  destruct (isspace x) eqn:Hx; [done|]. right. eauto.
Qed.

Lemma rstrip_cons_nonspace c s :
  isspace c = false → rstrip (String c s) = String c (rstrip s).
Proof. intros Hc. simpl. destruct (rstrip s); by rewrite ?Hc. Qed.

Lemma rstrip_app_nonspace a c b :
  isspace c = false →
  rstrip (a +:+ String c b) = a +:+ String c (rstrip b).
Proof.
  intros Hc. induction a as [|x a IH].
  - by apply rstrip_cons_nonspace.
  - change (rstrip (String x (a +:+ String c b))
            = String x (a +:+ String c (rstrip b))).
    cbn [rstrip]. rewrite IH. by destruct a.
Qed.

Lemma rstrip_cons_nonempty x s :
  rstrip s ≠ EmptyString → rstrip (String x s) = String x (rstrip s).
Proof. intros Hs. simpl. by destruct (rstrip s). Qed.

Lemma rstrip_idemp s : rstrip (rstrip s) = rstrip s.
Proof.
  induction s as [|x r IH]; [done|].
  destruct (decide (rstrip r = EmptyString)) as [Hr|Hr].
  - simpl. rewrite Hr. destruct (isspace x) eqn:Hx; [done|].
    simpl. by rewrite Hx.
  - rewrite (rstrip_cons_nonempty x r Hr).
    rewrite rstrip_cons_nonempty by (by rewrite IH). by rewrite IH.
Qed.

Lemma strip_idemp s : strip (strip s) = strip s.
Proof.
  unfold strip. destruct (lstrip_head s) as [->|(c & r & -> & Hc)]; [done|].
  rewrite rstrip_cons_nonspace by done. simpl. rewrite Hc.
  rewrite <- (rstrip_cons_nonspace c r Hc). apply rstrip_idemp.
Qed.

Lemma length_lstrip s : String.length (lstrip s) ≤ String.length s.
Proof.
  induction s as [|x r IH]; simpl; [done|]. destruct (isspace x); simpl; lia.
Qed.

Lemma length_rstrip s : String.length (rstrip s) ≤ String.length s.
Proof.
  induction s as [|x r IH]; simpl; [done|].
  destruct (rstrip r); [destruct (isspace x)|]; simpl in *; lia.
Qed.

(** A text that [strip] leaves as it is has no white space at its ends. *)
Lemma strip_fixed s :
  strip s = s → lstrip s = s ∧ rstrip s = s.
Proof.
  intros Hs. assert (lstrip s = s) as Hl.
  { destruct s as [|x r]; [done|]. simpl.
    destruct (isspace x) eqn:Hx; [|done]. exfalso.
    pose proof (length_rstrip (lstrip r)) as H1.
    pose proof (length_lstrip r) as H2.
    unfold strip in Hs. simpl in Hs. rewrite Hx in Hs.
    rewrite Hs in H1. simpl in H1. lia. }
  split; [done|]. unfold strip in Hs. by rewrite Hl in Hs.
Qed.

Lemma startswith_app old s : startswith old (old +:+ s) = true.
Proof.
  induction old as [|a old IH]; simpl; [done|]. by rewrite Ascii.eqb_refl.
Qed.

Lemma replace_scan_skip old new t s :
  replace_scan old new (String.length t) (t +:+ s) = replace_scan old new 0 s.
Proof. induction t as [|x t IH]; [done|]. simpl. apply IH. Qed.

Lemma replace_scan_absent old new s :
  substring_of old s = false → replace_scan old new 0 s = s.
Proof.
  induction s as [|x r IH]; [done|].
  cbn [substring_of replace_scan].
  intros [Hstart Hr]%orb_false_elim. rewrite Hstart. by rewrite IH.
Qed.

(** Removing a text that stands at the front and nowhere after it. *)
Lemma replace_front old s :
  old ≠ EmptyString → substring_of old s = false →
  replace old "" (old +:+ s) = s.
Proof.
  intros Hold Hs. destruct old as [|a old]; [done|].
  pose proof (startswith_app (String a old) s) as Hstart.
  change (String a old +:+ s) with (String a (old +:+ s)) in *.
  unfold replace. cbn [replace_scan]. rewrite Hstart.
  cbn [String.length]. rewrite Nat.sub_1_r. cbn [Nat.pred].
  rewrite replace_scan_skip. simpl. by apply replace_scan_absent.
Qed.

Lemma occurs_replace_scan c old k s :
  occurs c (replace_scan old "" k s) = true → occurs c s = true.
Proof.
  revert k. induction s as [|x r IH]; intros k; [done|].
  cbn [replace_scan]. destruct k as [|k].
  - destruct (startswith old (String x r)).
    + simpl. intros Hr. by rewrite (IH _ Hr), orb_true_r.
    + simpl. intros [->|Hr]%orb_prop; [done|]. by rewrite (IH _ Hr), orb_true_r.
  - simpl. intros Hr. by rewrite (IH _ Hr), orb_true_r.
Qed.

Lemma occurs_replace c old s :
  old ≠ EmptyString →
  occurs c (replace old "" s) = true → occurs c s = true.
Proof.
  intros Hold. destruct old; [done|]. apply occurs_replace_scan.
Qed.

End strings.

(** ** More on the parser *)

Section more_parsing.

Import PyStr Analyzer.

Lemma append_assoc (a b c : string) : (a +:+ b) +:+ c = a +:+ (b +:+ c).
Proof.
  induction a as [|x a IH]; [done|].
  change (String x ((a +:+ b) +:+ c) = String x (a +:+ (b +:+ c))).
  by f_equal.
Qed.

Lemma lf_only_last_tail c r :
  lf_only_last (String c r) = true → lf_only_last r = true.
Proof. destruct r; [done|]. cbn [lf_only_last]. by intros [_ ?]%andb_prop. Qed.

Lemma lf_only_last_after_last sep s :
  lf_only_last s = true → lf_only_last (after_last sep s) = true.
Proof.
  induction s as [|c r IH]; [done|]. intros Hs.
  pose proof (lf_only_last_tail _ _ Hs) as Hr. cbn [after_last].
  destruct (occurs sep r); [by apply IH|]. by destruct (Ascii.eqb c sep).
Qed.

Lemma lf_only_last_lstrip s :
  lf_only_last s = true → lf_only_last (lstrip s) = true.
Proof.
  induction s as [|c r IH]; [done|]. intros Hs.
  pose proof (lf_only_last_tail _ _ Hs) as Hr. cbn [lstrip].
  destruct (isspace c); [by apply IH | done].
Qed.

Lemma lf_only_last_cons c r :
  r ≠ EmptyString →
  lf_only_last (String c r) = negb (Ascii.eqb c LF) && lf_only_last r.
Proof. by destruct r. Qed.

Lemma lf_only_last_before_first sep s :
  lf_only_last s = true → lf_only_last (before_first sep s) = true.
Proof.
  induction s as [|c r IH]; [done|]. intros Hs.
  pose proof (lf_only_last_tail _ _ Hs) as Hr. cbn [before_first].
  destruct (Ascii.eqb c sep); [done|].
  destruct (decide (before_first sep r = EmptyString)) as [->|Hb]; [done|].
  rewrite lf_only_last_cons in Hs by (by destruct r).
  apply andb_prop in Hs as [Hc _].
  rewrite lf_only_last_cons by done. by rewrite Hc, IH.
Qed.

Lemma lf_only_last_rstrip s :
  lf_only_last s = true → occurs LF (rstrip s) = false.
Proof.
  induction s as [|c r IH]; [done|]. intros Hs.
  pose proof (lf_only_last_tail _ _ Hs) as Hr. specialize (IH Hr).
  destruct (decide (r = EmptyString)) as [->|Hne].
  - simpl. destruct (isspace c) eqn:Hc; [done|]. simpl. rewrite orb_false_r.
    apply Ascii.eqb_neq. intros ->. by vm_compute in Hc.
  - rewrite lf_only_last_cons in Hs by done.
    apply andb_prop in Hs as [Hc _]. apply negb_true_iff in Hc.
    cbn [rstrip]. destruct (rstrip r) as [|e t].
    + destruct (isspace c); simpl; [done|]. by rewrite Hc.
    + cbn [occurs] in *. by rewrite Hc, IH.
Qed.

Lemma readlines_lines stream :
  Forall (λ line, lf_only_last line = true ∧ line ≠ EmptyString)
    (readlines stream).
Proof.
  induction stream as [|c r IH]; [by constructor|]. cbn [readlines].
  destruct (Ascii.eqb c LF) eqn:Hc; [by constructor|].
  destruct (readlines r) as [|line lines]; [by repeat constructor|].
  inversion IH as [|? ? [Hline Hne] Hlines]; subst.
  constructor; [|done]. split; [|done].
  rewrite lf_only_last_cons by done. by rewrite Hc, Hline.
Qed.

(** What the loop of [_build_map] leaves under a key comes from a line. *)
Lemma foldl_store_line_Some lines hash_map k v :
  foldl store_line hash_map lines !! k = Some v →
  hash_map !! k = Some v
  ∨ ∃ line, line ∈ lines ∧ parse_line line = (k, v).
Proof.
  revert hash_map. induction lines as [|l rest IH]; intros hash_map; [by left|].
  simpl. intros [Hv|(line & Hin & Hp)]%IH.
  - unfold store_line in Hv.
    destruct (decide ((parse_line l).1 = k)) as [<-|Hne].
    + rewrite lookup_insert_eq in Hv. simplify_eq. right. exists l.
      split; [apply elem_of_cons; by left|]. by destruct (parse_line l).
    + rewrite lookup_insert_ne in Hv by done. by left.
  - right. exists line. split; [apply elem_of_cons; by right | done].
Qed.

Lemma foldl_store_line_size lines hash_map :
  size (foldl store_line hash_map lines) ≤ size hash_map + length lines.
Proof.
  revert hash_map. induction lines as [|l rest IH]; intros hash_map; simpl.
  - lia.
  - etrans; [apply IH|]. unfold store_line. rewrite map_size_insert.
    destruct (hash_map !! (parse_line l).1); simpl; lia.
Qed.

(** X1. A line made of a prefix, [>], white space, a path without [|] or
    [>] and without white space at its ends, [|] and the other fields, where
    the path followed by [|] does not come back among those fields, is
    stored under the path followed by [|], with the other fields as they
    stand, less the white space at their end, as its value. *)
Theorem parse_line_well_formed prefix indent path rest :
  all_space indent = true →
  path ≠ EmptyString → strip path = path →
  occurs "|" path = false → occurs ">" path = false →
  occurs ">" rest = false →
  substring_of (path +:+ "|") (rstrip rest) = false →
  parse_line (prefix +:+ String ">" (indent +:+ path +:+ String "|" rest))
  = (path +:+ "|", rstrip rest).
Proof.
  intros Hindent Hne Hstrip Hbar Hgt Hrest Hfresh.
  destruct (strip_fixed path Hstrip) as [Hl Hr].
  destruct path as [|c path']; [done|]. set (path := String c path') in *.
  assert (isspace c = false) as Hc.
  { destruct (isspace c) eqn:Hc; [|done]. exfalso.
    pose proof (length_lstrip path') as Hlen.
    unfold path in Hl. simpl in Hl. rewrite Hc in Hl. rewrite Hl in Hlen.
    simpl in Hlen. lia. }
  rewrite parse_line_body. cbn zeta.
  rewrite after_last_app.
  2:{ rewrite !occurs_app. cbn [occurs]. rewrite Hgt, Hrest.
      by rewrite (all_space_no_occurrence ">" indent). }
  rewrite <- (append_assoc indent path (String "|" rest)).
  rewrite before_first_app.
  2:{ rewrite occurs_app, Hbar.
      by rewrite (all_space_no_occurrence "|" indent). }
  assert (strip (indent +:+ path) = path) as ->.
  { unfold strip. rewrite lstrip_app_space by done. by rewrite Hl. }
  assert (strip ((indent +:+ path) +:+ String "|" rest)
          = (path +:+ "|") +:+ rstrip rest) as ->.
  { unfold strip. rewrite append_assoc, lstrip_app_space by done.
    assert (lstrip (path +:+ String "|" rest) = path +:+ String "|" rest) as ->.
    { unfold path. simpl. by rewrite Hc. }
    rewrite rstrip_app_nonspace by done.
    by rewrite append_assoc. }
  f_equal. apply replace_front; [|done]. by destruct path.
Qed.

(** X2. Whatever the line, its key is a text without [|] and without [>],
    with no white space at its ends, followed by one [|]; and its value has
    no [>]. *)
Theorem parse_line_key_shape line :
  ∃ path,
    (parse_line line).1 = path +:+ "|"
    ∧ occurs "|" path = false ∧ occurs ">" path = false
    ∧ strip path = path
    ∧ occurs ">" (parse_line line).2 = false.
Proof.
  rewrite parse_line_body. cbn zeta.
  pose proof (after_last_no_occurrence ">" line) as Hbody.
  set (body := after_last ">" line) in *.
  exists (strip (before_first "|" body)). cbn [fst snd].
  split; [done|]. split; [|split; [|split]].
  - destruct (occurs "|" (strip (before_first "|" body))) eqn:Ho; [|done].
    apply occurs_strip in Ho. by rewrite before_first_no_occurrence in Ho.
  - destruct (occurs ">" (strip (before_first "|" body))) eqn:Ho; [|done].
    apply occurs_strip, occurs_before_first in Ho. congruence.
  - apply strip_idemp.
  - destruct (occurs ">" (replace (strip (before_first "|" body) +:+ "|") ""
                            (strip body))) eqn:Ho; [|done].
    apply occurs_replace in Ho.
    + apply occurs_strip in Ho. congruence.
    + by destruct (strip (before_first "|" body)).
Qed.

(** X3. Every entry of the map built from a readable file is the key and
    the value of one of its lines, and the map has no more entries than the
    file has lines: an empty file gives the empty map. *)
Theorem build_map_entries fs filename content :
  fs !! filename = Some (File content) →
  ∃ hash_map,
    (_build_map fs filename).2 = Some hash_map
    ∧ (∀ k v, hash_map !! k = Some v →
              ∃ line, line ∈ readlines content ∧ parse_line line = (k, v))
    ∧ size hash_map ≤ length (readlines content)
    ∧ (content = EmptyString → hash_map = ∅).
Proof.
  intros Hfile. unfold _build_map. rewrite Hfile.
  eexists. split; [reflexivity|]. split; [|split].
  - intros k v [Hv|Hv]%foldl_store_line_Some; [|done].
    by rewrite lookup_empty in Hv.
  - etrans; [apply foldl_store_line_size|]. by rewrite map_size_empty.
  - by intros ->.
Qed.

(** X4. When several lines of a file have the same key, the value of the
    last of them is the one in the map. *)
Theorem build_map_last_line_wins fs filename content before line after :
  fs !! filename = Some (File content) →
  readlines content = before ++ line :: after →
  (∀ l, l ∈ after → (parse_line l).1 ≠ (parse_line line).1) →
  ∃ hash_map,
    (_build_map fs filename).2 = Some hash_map
    ∧ hash_map !! (parse_line line).1 = Some (parse_line line).2.
Proof.
  intros Hfile Hlines Hafter. unfold _build_map. rewrite Hfile, Hlines.
  eexists. split; [reflexivity|]. by apply build_lines_last_wins.
Qed.

(** X5. No key and no value of the map built from a file holds a line
    feed. *)
Theorem build_map_no_line_feed fs filename content hash_map k v :
  fs !! filename = Some (File content) →
  (_build_map fs filename).2 = Some hash_map →
  hash_map !! k = Some v →
  occurs LF k = false ∧ occurs LF v = false.
Proof.
  intros Hfile Hmap Hv. unfold _build_map in Hmap. rewrite Hfile in Hmap.
  cbn [snd] in Hmap. simplify_eq.
  apply foldl_store_line_Some in Hv as [Hv|(line & Hin & Hp)];
    [by rewrite lookup_empty in Hv|].
  pose proof (readlines_lines content) as Hall.
  rewrite Forall_forall in Hall. destruct (Hall line Hin) as [Hlf _].
  rewrite parse_line_body in Hp. cbn zeta in Hp.
  apply (lf_only_last_after_last ">") in Hlf.
  set (body := after_last ">" line) in *. simplify_eq. split.
  - rewrite occurs_app.
    change (occurs LF "|") with false. rewrite orb_false_r.
    unfold strip.
    by apply lf_only_last_rstrip, lf_only_last_lstrip,
      lf_only_last_before_first.
  - destruct (occurs LF (replace (strip (before_first "|" body) +:+ "|") ""
                           (strip body))) eqn:Ho; [|done].
    apply occurs_replace in Ho.
    + unfold strip in Ho.
      by rewrite (lf_only_last_rstrip _ (lf_only_last_lstrip _ Hlf)) in Ho.
    + by destruct (strip (before_first "|" body)).
Qed.

End more_parsing.

(** ** More on the comparison *)

Section more_comparison.

Import Analyzer.

(** The entry of a key in the result of the loop, by what the two maps hold
    under the key. *)
Lemma collect_lookup_cases original current order k :
  iteration_of (set_difference original current) order →
  match original !! k, current !! k with
  | Some a, Some b =>
      if decide (a = b) then collect order !! k = None
      else collect order !! k = Some a ∨ collect order !! k = Some b
  | Some a, None => collect order !! k = Some a
  | None, Some b => collect order !! k = Some b
  | None, None => collect order !! k = None
  end.
Proof.
  intros Hit.
  destruct (collect order !! k) as [v|] eqn:Hv.
  - apply (collect_lookup_Some _ _ _ _ _ Hit) in Hv.
    destruct (original !! k) as [a|], (current !! k) as [b|];
      try case_decide; destruct Hv as [[? ?]|[? ?]]; simplify_eq; auto.
  - apply (collect_lookup_None _ _ _ _ Hit) in Hv.
    destruct (original !! k) as [a|], (current !! k) as [b|];
      try case_decide; simplify_eq; auto.
Qed.

(** The loop of [_build_map] over lines with different keys. *)
Lemma build_lines_lookup_distinct lines k v :
  NoDup ((λ line, (parse_line line).1) <$> lines) →
  build_lines lines !! k = Some v ↔
  ∃ line, line ∈ lines ∧ parse_line line = (k, v).
Proof.
  intros Hkeys. split.
  - intros [Hv|Hv]%foldl_store_line_Some; [|done].
    by rewrite lookup_empty in Hv.
  - intros (line & Hin & Hp).
    apply list_elem_of_split in Hin as (before & after & ->).
    rewrite fmap_app, fmap_cons in Hkeys.
    apply NoDup_app in Hkeys as (_ & _ & Hkeys).
    apply NoDup_cons in Hkeys as [Hfresh _].
    pose proof (build_lines_last_wins before line after) as Hlast.
    rewrite Hp in Hlast. apply Hlast.
    intros l Hl Heq. apply Hfresh, list_elem_of_fmap. exists l.
    split; [by rewrite Heq, Hp | done].
Qed.

(** X6. The dictionary that [compare] returns is empty exactly when the
    two maps are equal. *)
Theorem compare_empty_iff_equal original current f1 f2 p result_set :
  compare (loaded original current) f1 f2 p (Return result_set) →
  result_set = ∅ ↔ original = current.
Proof.
  intros (order & Hit & [= ->])%compare_loaded_inv. split.
  - intros Hempty. apply map_eq. intros k.
    apply (collect_lookup_None _ _ _ _ Hit). by rewrite Hempty, lookup_empty.
  - intros <-. apply map_eq. intros k. rewrite lookup_empty.
    by apply (collect_lookup_None _ _ _ _ Hit).
Qed.

(** X7. The keys of the dictionary that [compare] returns are the keys
    under which the two maps do not hold the same, a key of one map only
    included; and each of its entries is an entry of one of the two maps. *)
Theorem compare_result_entries original current f1 f2 p result_set :
  compare (loaded original current) f1 f2 p (Return result_set) →
  (∀ k, is_Some (result_set !! k) ↔ original !! k ≠ current !! k)
  ∧ (∀ k v, result_set !! k = Some v →
            original !! k = Some v ∨ current !! k = Some v).
Proof.
  intros (order & Hit & [= ->])%compare_loaded_inv. split.
  - intros k. rewrite <- not_eq_None_Some.
    by rewrite (collect_lookup_None _ _ _ _ Hit).
  - intros k v Hv. apply (collect_lookup_Some _ _ _ _ _ Hit) in Hv. tauto.
Qed.

(** X8. Against an empty map, [compare] returns the other map, whole and
    in every run, whichever of the two sides the empty map is on. *)
Theorem compare_with_empty_map M f1 f2 p out :
  (compare (loaded ∅ M) f1 f2 p out ↔ out = Return M)
  ∧ (compare (loaded M ∅) f1 f2 p out ↔ out = Return M).
Proof.
  assert (∀ original current order,
            original = ∅ ∨ current = ∅ →
            iteration_of (set_difference original current) order →
            collect order = original ∪ current) as Hunion.
  { intros original current order Hside Hit. apply map_eq. intros k.
    pose proof (collect_lookup_cases original current order k Hit) as Hk.
    rewrite lookup_union.
    destruct Hside as [-> | ->]; rewrite lookup_empty in *.
    - by destruct (current !! k).
    - by destruct (original !! k). }
  split; split.
  - intros (order & Hit & ->)%compare_loaded_inv.
    rewrite (Hunion ∅ M) by auto. by rewrite (left_id_L ∅ (∪)).
  - intros ->. rewrite <- (left_id_L ∅ (∪) M) at 2.
    rewrite <- (Hunion ∅ M (elements (set_difference ∅ M)))
      by auto using iteration_of_elements.
    apply compare_loaded_intro, iteration_of_elements.
  - intros (order & Hit & ->)%compare_loaded_inv.
    rewrite (Hunion M ∅) by auto. by rewrite (right_id_L ∅ (∪)).
  - intros ->. rewrite <- (right_id_L ∅ (∪) M) at 2.
    rewrite <- (Hunion M ∅ (elements (set_difference M ∅)))
      by auto using iteration_of_elements.
    apply compare_loaded_intro, iteration_of_elements.
Qed.

(** X9. [compare] has one possible result for a pair of maps exactly when
    no key is in both maps with two different values. *)
Theorem compare_deterministic_iff original current f1 f2 p :
  (∀ out1 out2,
     compare (loaded original current) f1 f2 p out1 →
     compare (loaded original current) f1 f2 p out2 →
     out1 = out2)
  ↔ ¬ ∃ k a b, original !! k = Some a ∧ current !! k = Some b ∧ a ≠ b.
Proof.
  split.
  - intros Hdet (k & a & b & Ho & Hc & Hne).
    assert ((k, a) ∈ set_difference original current) as Ha.
    { apply elem_of_set_difference. left. split; congruence. }
    assert ((k, b) ∈ set_difference original current) as Hb.
    { apply elem_of_set_difference. right. split; congruence. }
    pose proof (Hdet _ _
      (compare_loaded_intro original current f1 f2 p _
         (iteration_of_first _ _ Ha))
      (compare_loaded_intro original current f1 f2 p _
         (iteration_of_first _ _ Hb))) as Heq.
    injection Heq as Heq. apply (f_equal (λ r, r !! k)) in Heq.
    rewrite !collect_lookup, !first_value_cons in Heq. congruence.
  - intros Hnone out1 out2
      (order1 & Hit1 & ->)%compare_loaded_inv
      (order2 & Hit2 & ->)%compare_loaded_inv.
    f_equal. apply map_eq. intros k.
    pose proof (collect_lookup_cases original current order1 k Hit1) as H1.
    pose proof (collect_lookup_cases original current order2 k Hit2) as H2.
    destruct (original !! k) as [a|] eqn:Ho, (current !! k) as [b|] eqn:Hc;
      try congruence.
    case_decide as Hab; [congruence|].
    exfalso. apply Hnone. by exists k, a, b.
Qed.

(** X10. A map file that is there but cannot be read does not stop the
    construction of the analyzer: the error is logged, and it is the call of
    [compare] that fails, with [AttributeError], in every run. *)
Theorem init_unreadable_then_compare fs original_map_file current_map_file
    error :
  is_Some (fs !! original_map_file) → is_Some (fs !! current_map_file) →
  fs !! original_map_file = Some (Unreadable error)
  ∨ fs !! current_map_file = Some (Unreadable error) →
  ∃ log self,
    __init__ fs original_map_file current_map_file = (log, Constructed self)
    ∧ (ERROR, error) ∈ log
    ∧ ∀ f1 f2 p out, compare self f1 f2 p out ↔ out = AttributeError.
Proof.
  intros Ho Hc Hbad. unfold __init__, exists_path.
  rewrite !bool_decide_eq_true_2 by done. cbn [negb].
  assert (∀ self, original_map self = None ∨ current_map self = None →
            ∀ f1 f2 p out, compare self f1 f2 p out ↔ out = AttributeError)
    as Hraise.
  { intros self Hnone f1 f2 p out. split.
    - intros Hcall. inversion Hcall as [o c order Hso Hsc Hit|Hn]; [|done].
      destruct Hnone; congruence.
    - intros ->. by apply compare_raise. }
  unfold _build_map. destruct Ho as [n1 Hn1], Hc as [n2 Hn2].
  rewrite Hn1, Hn2.
  destruct Hbad as [Hbad|Hbad]; rewrite Hbad in *; simplify_eq.
  - destruct n2; do 2 eexists;
      (split; [reflexivity|]; split; [|apply Hraise; by left]);
      rewrite !elem_of_app, !elem_of_cons; auto.
  - destruct n1; do 2 eexists;
      (split; [reflexivity|]; split; [|apply Hraise; by right]);
      rewrite !elem_of_app, !elem_of_cons; auto.
Qed.

(** X11. With two readable map files the analyzer is constructed and every
    call of [compare] returns a dictionary; the dictionary is empty exactly
    when the two files give the same map, as they do when one has the lines
    of the other in another order and no key comes twice. *)
Theorem init_readable_then_compare fs original_map_file current_map_file
    content1 content2 :
  fs !! original_map_file = Some (File content1) →
  fs !! current_map_file = Some (File content2) →
  ∃ log self,
    __init__ fs original_map_file current_map_file = (log, Constructed self)
    ∧ (∀ f1 f2 p, ∃ result_set, compare self f1 f2 p (Return result_set))
    ∧ (∀ f1 f2 p out, compare self f1 f2 p out →
         ∃ result_set, out = Return result_set
           ∧ (result_set = ∅ ↔
              build_lines (readlines content1)
              = build_lines (readlines content2)))
    ∧ (readlines content1 ≡ₚ readlines content2 →
       NoDup ((λ line, (parse_line line).1) <$> readlines content1) →
       ∀ f1 f2 p out, compare self f1 f2 p out → out = Return ∅).
Proof.
  intros H1 H2. unfold __init__, exists_path.
  rewrite !bool_decide_eq_true_2 by (by rewrite ?H1, ?H2).
  cbn [negb]. unfold _build_map. rewrite H1, H2.
  do 2 eexists. split; [reflexivity|].
  fold (loaded (build_lines (readlines content1))
          (build_lines (readlines content2))).
  assert (∀ f1 f2 p out,
            compare (loaded (build_lines (readlines content1))
                       (build_lines (readlines content2))) f1 f2 p out →
            ∃ result_set, out = Return result_set
              ∧ (result_set = ∅ ↔
                 build_lines (readlines content1)
                 = build_lines (readlines content2))) as Hempty.
  { intros f1 f2 p out (order & Hit & ->)%compare_loaded_inv.
    eexists. split; [done|]. split.
    - intros Hnil. apply map_eq. intros k.
      apply (collect_lookup_None _ _ _ _ Hit). by rewrite Hnil, lookup_empty.
    - intros Heq. apply map_eq. intros k. rewrite lookup_empty.
      apply (collect_lookup_None _ _ _ _ Hit). by rewrite Heq. }
  split; [intros; apply compare_loaded_total|]. split; [done|].
  intros Hperm Hkeys f1 f2 p out Hcall.
  destruct (Hempty f1 f2 p out Hcall) as (result_set & -> & Hiff).
  f_equal. apply Hiff, map_eq. intros k.
  assert (NoDup ((λ line, (parse_line line).1) <$> readlines content2))
    as Hkeys2 by (by rewrite <- Hperm).
  apply option_eq. intros v.
  rewrite !build_lines_lookup_distinct by done.
  by setoid_rewrite Hperm.
Qed.

End more_comparison.

(** ** The report of the scan *)

Section scan.

Import Analyzer Program.

Variable upper : string → string.

Lemma report_entry_block verbose original_map current_map state filename :
  report_entry upper verbose original_map current_map state filename =
  let data := entry_block upper original_map current_map filename in
  {| total_count := S (total_count state);
     difference_count := difference_count state + length (option_list data);
     written := written state ++ option_list data;
     printed := printed state ++ (if verbose then option_list data else []) |}.
Proof.
  unfold report_entry, entry_block, checksum_changed. cbn zeta.
  destruct (original_map !! filename) as [a|];
    [destruct (current_map !! filename) as [b|]|];
    try case_bool_decide; destruct verbose; simpl;
    by rewrite ?Nat.add_0_r, ?Nat.add_1_r, ?app_nil_r.
Qed.

Lemma foldl_report_entry verbose original_map current_map keys state :
  foldl (report_entry upper verbose original_map current_map) state keys =
  let blocks := omap (entry_block upper original_map current_map) keys in
  {| total_count := total_count state + length keys;
     difference_count := difference_count state + length blocks;
     written := written state ++ blocks;
     printed := printed state ++ (if verbose then blocks else []) |}.
Proof.
  revert state. induction keys as [|k keys IH]; intros state.
  - destruct state, verbose; simpl;
      by rewrite ?Nat.add_0_r, ?app_nil_r.
  - cbn [foldl]. rewrite IH, report_entry_block. cbn zeta.
    cbn [total_count difference_count written printed omap list_omap].
    destruct (entry_block upper original_map current_map k) as [data|];
      destruct verbose; simpl (option_list _);
      rewrite <- ?app_assoc, ?app_nil_r, ?Nat.add_0_r; cbn [app length];
      f_equal; solve [lia | done].
Qed.

Lemma report_loop_blocks verbose original_map current_map keys :
  report_loop upper verbose original_map current_map keys =
  let blocks := omap (entry_block upper original_map current_map) keys in
  {| total_count := length keys;
     difference_count := length blocks;
     written := blocks;
     printed := if verbose then blocks else [] |}.
Proof. unfold report_loop. by rewrite foldl_report_entry. Qed.

Lemma entry_block_is_Some original_map current_map k :
  is_Some (entry_block upper original_map current_map k)
  ↔ checksum_changed original_map current_map k = true.
Proof.
  unfold entry_block.
  destruct (checksum_changed original_map current_map k) eqn:Hk.
  - unfold checksum_changed in Hk.
    destruct (original_map !! k), (current_map !! k); try done;
      split; eauto.
  - split; [|done].
    destruct (original_map !! k), (current_map !! k); by intros [? ?].
Qed.

Lemma length_omap_entry_block original_map current_map keys :
  length (omap (entry_block upper original_map current_map) keys)
  = length (filter (λ k, checksum_changed original_map current_map k = true)
              keys).
Proof.
  induction keys as [|k keys IH]; [done|].
  cbn [omap list_omap]. rewrite filter_cons.
  pose proof (entry_block_is_Some original_map current_map k) as Hk.
  destruct (entry_block upper original_map current_map k) as [data|].
  - rewrite decide_True by (apply Hk; eauto). simpl. by rewrite IH.
  - rewrite decide_False; [done|]. intros Hc. apply Hk in Hc. by destruct Hc.
Qed.

Lemma checksum_changed_differ original_map current_map k :
  checksum_changed original_map current_map k = true →
  is_Some (original_map !! k) ∧ is_Some (current_map !! k)
  ∧ original_map !! k ≠ current_map !! k.
Proof.
  unfold checksum_changed.
  destruct (original_map !! k) as [a|], (current_map !! k) as [b|];
    try done.
  intros Hc%bool_decide_eq_true. repeat split; eauto. congruence.
Qed.

Lemma foldl_insertion_order order keys :
  NoDup keys →
  NoDup (foldl (λ keys entry_tuple,
                  if decide (entry_tuple.1 ∈ keys) then keys
                  else keys ++ [entry_tuple.1]) keys order)
  ∧ ∀ k, k ∈ foldl (λ keys (entry_tuple : string * string),
                      if decide (entry_tuple.1 ∈ keys) then keys
                      else keys ++ [entry_tuple.1]) keys order
         ↔ k ∈ keys ∨ k ∈ order.*1.
Proof.
  revert keys. induction order as [|e order IH]; intros keys Hkeys.
  - split; [done|]. intros k. rewrite elem_of_nil. tauto.
  - cbn [foldl fmap list_fmap]. case_decide as He.
    + destruct (IH keys Hkeys) as [Hnd Hin]. split; [done|].
      intros k. rewrite Hin, elem_of_cons.
      destruct (decide (k = e.1)) as [->|]; tauto.
    + assert (NoDup (keys ++ [e.1])) as Hkeys'.
      { apply NoDup_app. split; [done|]. split; [|apply NoDup_singleton].
        intros x Hx ->%list_elem_of_singleton. done. }
      destruct (IH _ Hkeys') as [Hnd Hin]. split; [done|].
      intros k. rewrite Hin, elem_of_app, list_elem_of_singleton, elem_of_cons.
      tauto.
Qed.

Lemma NoDup_insertion_order order : NoDup (insertion_order order).
Proof. apply foldl_insertion_order, NoDup_nil_2. Qed.

Lemma elem_of_insertion_order order k :
  k ∈ insertion_order order ↔ is_Some (collect order !! k).
Proof.
  unfold insertion_order.
  rewrite (proj2 (foldl_insertion_order order [] (NoDup_nil_2))).
  rewrite elem_of_nil, collect_lookup, <- not_eq_None_Some, first_value_None.
  rewrite list_elem_of_fmap. split.
  - intros [[]|([k' v] & -> & Hin)] Hno. by apply (Hno v).
  - intros Hno. right.
    destruct (first_value k order) as [v|] eqn:Hv.
    + exists (k, v). split; [done|]. by apply first_value_Some.
    + exfalso. apply Hno. by apply first_value_None.
Qed.

Lemma insertion_order_Permutation order :
  insertion_order order ≡ₚ elements (dom (collect order)).
Proof.
  apply NoDup_Permutation;
    [apply NoDup_insertion_order | apply NoDup_elements |].
  intros k. by rewrite elem_of_insertion_order, elem_of_elements, elem_of_dom.
Qed.

Lemma length_insertion_order order :
  length (insertion_order order) = size (collect order).
Proof.
  rewrite insertion_order_Permutation, <- size_dom. done.
Qed.

(** X12. In the loop of [_scan] the count of differences is the number of
    texts written, one for each key present in both maps with two different
    checksums, in the order of the keys; every key is counted in the total,
    and the texts are printed as well when the run is verbose and not
    otherwise. A key of one map only is counted and nothing is written for
    it. *)
Theorem report_loop_counts verbose original_map current_map keys :
  let result := report_loop upper verbose original_map current_map keys in
  total_count result = length keys
  ∧ written result = omap (entry_block upper original_map current_map) keys
  ∧ difference_count result = length (written result)
  ∧ difference_count result ≤ total_count result
  ∧ printed result = (if verbose then written result else [])
  ∧ ∀ k, original_map !! k = None ∨ current_map !! k = None →
         entry_block upper original_map current_map k = None.
Proof.
  cbn zeta. rewrite report_loop_blocks. cbn zeta.
  cbn [total_count difference_count written printed].
  repeat split.
  - rewrite length_omap_entry_block. apply length_filter.
  - intros k [Hk|Hk]; unfold entry_block; rewrite Hk; [done|].
    by destruct (original_map !! k).
Qed.

(** X13. Whatever the order in which the set of [compare] yields its
    tuples, the report of [_scan] has the same total, which is the number of
    keys of the dictionary of differences, and the same count of differences,
    which is the number of keys present in both maps with two different
    checksums. *)
Theorem write_report_counts verbose original_map_file current_map_file now
    original_map current_map order :
  iteration_of (set_difference original_map current_map) order →
  let result :=
    write_report upper verbose original_map_file current_map_file now
      original_map current_map (insertion_order order) in
  total_count result = size (collect order)
  ∧ difference_count result
    = size (filter (λ k, checksum_changed original_map current_map k = true)
              (dom original_map))
  ∧ length (written result) = difference_count result + 2.
Proof.
  intros Hit. cbn zeta. unfold write_report. rewrite report_loop_blocks.
  cbn zeta. cbn [total_count difference_count written printed].
  split; [apply length_insertion_order|]. split.
  - rewrite length_omap_entry_block.
    apply Permutation_length, NoDup_Permutation.
    + apply NoDup_filter, NoDup_insertion_order.
    + apply NoDup_elements.
    + intros k.
      rewrite list_elem_of_filter, elem_of_elements, elem_of_filter,
        elem_of_insertion_order, elem_of_dom.
      split; intros [Hc Hk]; (split; [done|]);
        destruct (checksum_changed_differ _ _ _ Hc) as (Ho & _ & Hne);
        [done|].
      rewrite <- not_eq_None_Some.
      by rewrite (collect_lookup_None _ _ _ _ Hit).
  - rewrite length_app. simpl. lia.
Qed.

(** X14. Two runs of [_scan] over the same maps, with the set of [compare]
    yielding its tuples in two orders, write the same texts, in an order that
    can differ, and end with the same two closing lines. *)
Theorem write_report_order_independent verbose original_map_file
    current_map_file now original_map current_map order1 order2 :
  iteration_of (set_difference original_map current_map) order1 →
  iteration_of (set_difference original_map current_map) order2 →
  let result1 :=
    write_report upper verbose original_map_file current_map_file now
      original_map current_map (insertion_order order1) in
  let result2 :=
    write_report upper verbose original_map_file current_map_file now
      original_map current_map (insertion_order order2) in
  total_count result1 = total_count result2
  ∧ difference_count result1 = difference_count result2
  ∧ written result1 ≡ₚ written result2
  ∧ List.last (written result1) "" = List.last (written result2) "".
Proof.
  intros Hit1 Hit2. cbn zeta.
  assert (insertion_order order1 ≡ₚ insertion_order order2) as Hperm.
  { apply NoDup_Permutation; [apply NoDup_insertion_order..|].
    intros k. rewrite !elem_of_insertion_order, <- !not_eq_None_Some.
    by rewrite (collect_lookup_None _ _ _ _ Hit1),
      (collect_lookup_None _ _ _ _ Hit2). }
  unfold write_report. rewrite !report_loop_blocks. cbn zeta.
  cbn [total_count difference_count written printed].
  assert (length (omap (entry_block upper original_map current_map)
                    (insertion_order order1))
          = length (omap (entry_block upper original_map current_map)
                      (insertion_order order2))) as Hlen
    by (by rewrite Hperm).
  split; [by rewrite Hperm|]. split; [done|]. split.
  - rewrite Hlen. by rewrite Hperm.
  - rewrite Hlen.
    assert (∀ (l : list string) a b, List.last (l ++ [a; b]) "" = b) as Hlast.
    { intros l a b. induction l as [|x [|y l] IH]; done. }
    by rewrite !Hlast.
Qed.

(** The [sys.exit(2)] of the construction of the analyzer leaves [_scan]
    through its [except Exception]. *)
Lemma scan_missing fs verbose original_map_file current_map_file now order :
  fs !! original_map_file = None ∨ fs !! current_map_file = None →
  _scan upper fs verbose original_map_file current_map_file now order
  = Exits 2.
Proof.
  intros Hmissing. unfold _scan, __init__, exists_path.
  destruct (fs !! original_map_file) as [n1|] eqn:H1.
  - destruct Hmissing as [?|H2]; [done|]. rewrite H2.
    rewrite bool_decide_eq_true_2 by eauto.
    by rewrite bool_decide_eq_false_2 by (by intros [? ?]).
  - by rewrite bool_decide_eq_false_2 by (by intros [? ?]).
Qed.

Lemma last_fmap {A B} (f : A → B) (l : list A) (d : A) (e : B) :
  l ≠ [] → List.last (f <$> l) e = f (List.last l d).
Proof.
  induction l as [|x [|y l] IH]; [done..|]. intros _.
  change (List.last (f <$> y :: l) e = f (List.last (y :: l) d)).
  by apply IH.
Qed.

Lemma checksum_tabbed value :
  checksum (tabbed value)
  = PyStr.strip
      (List.last (PyStr.split " " (String TAB (after_last "|" value))) "").
Proof.
  unfold checksum, tabbed.
  rewrite (last_fmap _ _ "") by apply split_nonempty.
  by rewrite (split_last "|" value).
Qed.

(** X15. When both map files are there and one of them cannot be read,
    [_scan] ends in its [except] clause with the text of the
    [AttributeError]: nothing is written. *)
Theorem scan_unreadable_file fs verbose original_map_file current_map_file
    now order error :
  is_Some (fs !! original_map_file) → is_Some (fs !! current_map_file) →
  fs !! original_map_file = Some (Unreadable error)
  ∨ fs !! current_map_file = Some (Unreadable error) →
  _scan upper fs verbose original_map_file current_map_file now order
  = Failed "'NoneType' object has no attribute 'items'".
Proof.
  intros [n1 H1] [n2 H2] Hbad. unfold _scan, __init__, exists_path.
  rewrite !bool_decide_eq_true_2 by eauto. cbn [negb].
  unfold _build_map. rewrite H1, H2.
  destruct Hbad as [Hbad|Hbad]; rewrite Hbad in *; simplify_eq.
  - by destruct n2.
  - by destruct n1.
Qed.

(** X16. With two readable map files, [_scan] finds no changes exactly when
    the two files give the same map; otherwise it opens the results file and
    writes its report, also when no text for any file goes into it. *)
Theorem scan_readable_files fs verbose original_map_file current_map_file now
    order content1 content2 :
  fs !! original_map_file = Some (File content1) →
  fs !! current_map_file = Some (File content2) →
  iteration_of (set_difference (build_lines (readlines content1))
                  (build_lines (readlines content2))) order →
  _scan upper fs verbose original_map_file current_map_file now order
  = if decide (build_lines (readlines content1)
               = build_lines (readlines content2))
    then NoChanges
    else Reported
           (write_report upper verbose original_map_file current_map_file now
              (build_lines (readlines content1))
              (build_lines (readlines content2))
              (insertion_order order)).
Proof.
  intros H1 H2 Hit. unfold _scan, __init__, exists_path.
  rewrite !bool_decide_eq_true_2 by (by rewrite ?H1, ?H2). cbn [negb].
  unfold _build_map. rewrite H1, H2.
  cbn [snd original_map current_map].
  assert (collect order = ∅ ↔
          build_lines (readlines content1) = build_lines (readlines content2))
    as Hempty.
  { split.
    - intros Hnil. apply map_eq. intros k.
      apply (collect_lookup_None _ _ _ _ Hit). by rewrite Hnil, lookup_empty.
    - intros Heq. apply map_eq. intros k. rewrite lookup_empty.
      apply (collect_lookup_None _ _ _ _ Hit). by rewrite Heq. }
  case_decide as Heq.
  - apply Hempty in Heq. rewrite Heq, map_size_empty.
    by rewrite bool_decide_eq_false_2 by lia.
  - rewrite bool_decide_eq_true_2; [done|].
    assert (size (collect order) ≠ 0); [|lia].
    rewrite map_size_empty_iff. by rewrite Hempty.
Qed.

(** X17. When no key is in both maps with two different checksums, as when
    files were only added or removed, or changed with their checksum kept, the
    report has the two closing lines and nothing else, and its count of
    differences is zero, however many keys the dictionary of differences
    has. *)
Theorem write_report_nothing_to_show verbose original_map_file
    current_map_file now original_map current_map keys :
  (∀ k, checksum_changed original_map current_map k = false) →
  write_report upper verbose original_map_file current_map_file now
    original_map current_map keys
  = {| total_count := length keys;
       difference_count := 0;
       written :=
         [output_message now;
          difference_message 0 original_map_file current_map_file];
       printed :=
         if verbose
         then [PyStr.replace (String LF "") "" (output_message now);
               difference_message 0 original_map_file current_map_file]
         else [] |}.
Proof.
  intros Hnone. unfold write_report. rewrite report_loop_blocks. cbn zeta.
  assert (omap (entry_block upper original_map current_map) keys = [])
    as ->.
  { induction keys as [|k keys IH]; [done|]. cbn [omap list_omap].
    pose proof (entry_block_is_Some original_map current_map k) as Hk.
    destruct (entry_block upper original_map current_map k); [|done].
    destruct Hk as [Hk _]. rewrite Hnone in Hk. by specialize (Hk (mk_is_Some _ _ eq_refl)). }
  cbn [total_count difference_count written printed length app].
  by destruct verbose.
Qed.

(** X18. The loop of [_scan] looks at the last field of the two values
    only: a key whose two values end in the same field gets no text, whatever
    the other fields are; and when the last fields hold no space, the key
    gets a text exactly when they differ once trimmed. *)
Theorem report_compares_last_field original_map current_map k a b :
  original_map !! k = Some a → current_map !! k = Some b →
  (after_last "|" a = after_last "|" b →
   entry_block upper original_map current_map k = None)
  ∧ (occurs " " (after_last "|" a) = false →
     occurs " " (after_last "|" b) = false →
     is_Some (entry_block upper original_map current_map k)
     ↔ PyStr.strip (after_last "|" a) ≠ PyStr.strip (after_last "|" b)).
Proof.
  intros Ha Hb.
  assert (Hblock : is_Some (entry_block upper original_map current_map k)
                   ↔ checksum (tabbed b) ≠ checksum (tabbed a)).
  { rewrite entry_block_is_Some. unfold checksum_changed. rewrite Ha, Hb.
    apply bool_decide_eq_true. }
  split.
  - intros Hlast. apply eq_None_not_Some. rewrite Hblock.
    rewrite !checksum_tabbed, Hlast. by intros [].
  - intros Hsa Hsb. rewrite Hblock, !checksum_tabbed.
    rewrite !split_no_occurrence by (by cbn [occurs]; rewrite ?Hsa, ?Hsb).
    cbn [List.last].
    assert (∀ s, PyStr.strip (String TAB s) = PyStr.strip s) as Htab by done.
    rewrite !Htab. split; intros Hne Heq; by apply Hne.
Qed.

Lemma member_remove_first_ne x y argv :
  x ≠ y → member x (remove_first y argv) = member x argv.
Proof.
  intros Hne. unfold member. apply bool_decide_ext.
  induction argv as [|z argv IH]; [done|]. cbn [remove_first].
  case_decide as Hz.
  - subst z. rewrite elem_of_cons. split; [auto|]. by intros [?|?].
  - rewrite !elem_of_cons, IH. done.
Qed.

Lemma remove_first_app x l1 l2 :
  x ∉ l1 → remove_first x (l1 ++ x :: l2) = l1 ++ l2.
Proof.
  induction l1 as [|y l1 IH]; intros Hx; cbn [remove_first app].
  - by rewrite decide_True.
  - apply not_elem_of_cons in Hx as [Hne Hx].
    rewrite decide_False by done. by rewrite IH.
Qed.

Lemma member_flag_free x argv :
  is_flag x = true → Forall (λ y, is_flag y = false) argv →
  member x argv = false.
Proof.
  intros Hx Hfree. apply bool_decide_eq_false_2. intros Hin.
  rewrite Forall_forall in Hfree. specialize (Hfree x Hin). congruence.
Qed.

(** A path that is not there before [_check_results_log] is not there
    after it. *)
Lemma check_results_log_missing fs results_file answer remove_fails fs' path :
  _check_results_log fs results_file answer remove_fails = Some fs' →
  fs !! path = None → fs' !! path = None.
Proof.
  unfold _check_results_log. intros Hcheck Hpath.
  destruct (exists_path fs results_file); [|by simplify_eq].
  destruct answer as [line|]; [|done].
  destruct (member (lower line) valid_responses); [|by simplify_eq].
  destruct remove_fails; [done|]. simplify_eq.
  apply lookup_delete_None. by right.
Qed.

(** What [main] does once the flags are dealt with and three arguments are
    left. *)
Lemma main_three_arguments fs results_file answer remove_fails now order argv
    verbose prog o c :
  Forall (λ y, is_flag y = false) [prog; o; c] →
  (member "-v" argv || member "--verbose" argv) = verbose →
  (if verbose then
     if member "-v" argv then remove_first "-v" argv
     else remove_first "--verbose" argv
   else argv) = [prog; o; c] →
  main upper fs results_file answer remove_fails now order argv
  = (print_greeting
     :: scan (run_scan upper fs results_file answer remove_fails verbose o c
                now order)
     :: match run_scan upper fs results_file answer remove_fails verbose o c
                now order with
        | prompt_raised | try_ended (Exits _) => [print_usage]
        | _ => []
        end,
     Returns).
Proof.
  intros Hfree Hflag Hargv. unfold main. rewrite Hflag, Hargv.
  rewrite !(member_flag_free _ [prog; o; c]) by done.
  cbn [orb length lookup list_lookup].
  rewrite bool_decide_eq_true_2 by lia.
  rewrite bool_decide_eq_false_2 by lia.
  destruct (run_scan upper fs results_file answer remove_fails verbose o c
              now order) as [|[]]; done.
Qed.

(** X19. [main] leaves with [sys.exit(2)] exactly when [-h] or [--help] is
    among the arguments, wherever it stands and whatever else is there; it
    has then printed the usage and not called [_scan]. In every other case
    it returns. *)
Theorem main_help fs results_file answer remove_fails now order argv :
  (member "-h" argv || member "--help" argv = true →
   main upper fs results_file answer remove_fails now order argv
   = ([print_usage], SysExit 2))
  ∧ (member "-h" argv || member "--help" argv = false →
     (main upper fs results_file answer remove_fails now order argv).2
     = Returns).
Proof.
  unfold main.
  set (argv' := if member "-v" argv || member "--verbose" argv
                then if member "-v" argv then remove_first "-v" argv
                     else remove_first "--verbose" argv
                else argv).
  assert (member "-h" argv' = member "-h" argv
          ∧ member "--help" argv' = member "--help" argv) as [-> ->].
  { unfold argv'.
    destruct (member "-v" argv || member "--verbose" argv); [|done].
    destruct (member "-v" argv); by rewrite !member_remove_first_ne. }
  split; intros ->; [done|].
  repeat case_bool_decide; try done.
  destruct (argv' !! 1), (argv' !! 2); try done.
  by destruct (run_scan _ _ _ _ _ _ _ _ _ _) as [|[]].
Qed.

(** X20. With the name of the program and two paths that are no flags,
    [main] prints the greeting and calls [_scan] on the two paths, verbose
    when one [-v] or [--verbose] stands anywhere among the three and not
    otherwise. [_scan] first asks about a results file that is there, then
    runs its [try] statement on the file system that is left. The usage
    follows exactly when [_scan] was left by an exception: one of
    [_check_results_log], or the [sys.exit] of a missing map file. *)
Theorem main_scans fs results_file answer remove_fails now order prog o c argv
    verbose :
  Forall (λ y, is_flag y = false) [prog; o; c] →
  (verbose = false ∧ argv = [prog; o; c])
  ∨ (verbose = true
     ∧ ∃ flag l1 l2, (flag = "-v" ∨ flag = "--verbose")
         ∧ argv = l1 ++ flag :: l2 ∧ l1 ++ l2 = [prog; o; c]) →
  let ended :=
    match _check_results_log fs results_file answer remove_fails with
    | None => prompt_raised
    | Some fs' => try_ended (_scan upper fs' verbose o c now order)
    end in
  main upper fs results_file answer remove_fails now order argv
  = (print_greeting
     :: scan ended
     :: match ended with
        | prompt_raised | try_ended (Exits _) => [print_usage]
        | _ => []
        end,
     Returns).
Proof.
  intros Hfree [[-> ->]|(-> & flag & l1 & l2 & Hflag & -> & Hrest)]; cbn zeta.
  - apply (main_three_arguments _ _ _ _ _ _ _ false prog o c); [done| |done].
    by rewrite !(member_flag_free _ [prog; o; c]).
  - assert (Forall (λ y, is_flag y = false) l1
            ∧ Forall (λ y, is_flag y = false) l2) as [Hl1 Hl2].
    { rewrite <- Hrest in Hfree. by apply Forall_app in Hfree. }
    assert (∀ x, is_flag x = true → x ∉ l1) as Hno1.
    { intros x Hx Hin. rewrite Forall_forall in Hl1.
      specialize (Hl1 x Hin). congruence. }
    assert (∀ x, is_flag x = true → x ∉ l2) as Hno2.
    { intros x Hx Hin. rewrite Forall_forall in Hl2.
      specialize (Hl2 x Hin). congruence. }
    apply (main_three_arguments _ _ _ _ _ _ _ true prog o c); [done| |].
    + destruct Hflag as [-> | ->].
      * unfold member at 1. rewrite bool_decide_eq_true_2; [done|].
        apply elem_of_app. right. apply elem_of_cons. by left.
      * unfold member at 2. rewrite (bool_decide_eq_true_2 ("--verbose" ∈ _)).
        -- apply orb_true_r.
        -- apply elem_of_app. right. apply elem_of_cons. by left.
    + destruct Hflag as [-> | ->].
      * unfold member. rewrite bool_decide_eq_true_2
          by (apply elem_of_app; right; apply elem_of_cons; by left).
        by rewrite remove_first_app by (by apply Hno1).
      * unfold member. rewrite bool_decide_eq_false_2.
        -- by rewrite remove_first_app by (by apply Hno1).
        -- rewrite elem_of_app, elem_of_cons.
           intros [Hin|[?|Hin]]; [by apply (Hno1 "-v") | done
                                  | by apply (Hno2 "-v")].
Qed.

(** X21. Run on two paths of which one does not exist, the program prints
    the greeting and then the usage, and [main] returns. [_scan] is left
    either by an exception of [_check_results_log], when the results file is
    there and the reply or the removal fails, or else by the [sys.exit(2)] of
    the analyzer; the bare [except] of [main] catches both, and the status 2
    is not that of the run. *)
Theorem main_missing_file fs results_file answer remove_fails now order
    prog o c :
  Forall (λ y, is_flag y = false) [prog; o; c] →
  fs !! o = None ∨ fs !! c = None →
  main upper fs results_file answer remove_fails now order [prog; o; c]
  = ([print_greeting;
      scan (match _check_results_log fs results_file answer remove_fails with
            | None => prompt_raised
            | Some _ => try_ended (Exits 2)
            end);
      print_usage],
     Returns).
Proof.
  intros Hfree Hmissing.
  rewrite (main_three_arguments _ _ _ _ _ _ _ false prog o c);
    [|done|by rewrite !(member_flag_free _ [prog; o; c])|done].
  unfold run_scan.
  destruct (_check_results_log fs results_file answer remove_fails)
    as [fs'|] eqn:Hcheck; [|done].
  rewrite scan_missing; [done|].
  destruct Hmissing as [Ho|Hc]; [left | right];
    by eapply check_results_log_missing.
Qed.

(** X22. With arguments that are no flags and that are not three in
    number, the name of the program included, [main] prints the usage and
    returns without calling [_scan]. *)
Theorem main_wrong_number_of_arguments fs results_file answer remove_fails now
    order argv :
  Forall (λ y, is_flag y = false) argv →
  length argv ≠ 3 →
  main upper fs results_file answer remove_fails now order argv
  = ([print_usage], Returns).
Proof.
  intros Hfree Hlen. unfold main.
  rewrite !(member_flag_free _ argv) by done. cbn [orb].
  repeat case_bool_decide; try done.
  destruct argv as [|a [|b [|c [|d argv]]]]; simpl in *; try done; lia.
Qed.

End scan.

(** ** The further properties on the sample data *)

Section more_samples.

Import PyStr Analyzer Program.

(** X1 on the line of the first scenario. *)
Lemma parse_line_well_formed_witness :
  parse_line
    ("2021-01-01 00:00:00 "
     +:+ String ">" (" " +:+ "/etc/hosts"
                     +:+ String "|" "4096|d41d8cd98f00b204e9800998ecf8427e"))
  = ("/etc/hosts" +:+ "|", rstrip "4096|d41d8cd98f00b204e9800998ecf8427e").
Proof.
  apply parse_line_well_formed.
  - vm_compute. reflexivity.
  - discriminate.
  - vm_compute. reflexivity.
  - vm_compute. reflexivity.
  - vm_compute. reflexivity.
  - vm_compute. reflexivity.
  - vm_compute. reflexivity.
Defined.

(** X3 on the file that ends with a blank line. *)
Lemma build_map_entries_witness :
  ∃ hash_map,
    (_build_map {[ "current.map" := File blank_content ]} "current.map").2
    = Some hash_map
    ∧ (∀ k v, hash_map !! k = Some v →
              ∃ line, line ∈ readlines blank_content ∧ parse_line line = (k, v))
    ∧ size hash_map ≤ length (readlines blank_content)
    ∧ (blank_content = EmptyString → hash_map = ∅).
Proof.
  apply (build_map_entries {[ "current.map" := File blank_content ]}
           "current.map" blank_content).
  vm_compute. reflexivity.
Defined.

(** X4 on the file in which a path comes twice. *)
Lemma build_map_last_line_wins_witness :
  ∃ hash_map,
    (_build_map {[ "current.map" := File duplicate_content ]} "current.map").2
    = Some hash_map
    ∧ hash_map
        !! (parse_line ("2021-01-02 00:00:00 > /etc/hosts|4100|5d41"
                        +:+ String LF "")).1
      = Some (parse_line ("2021-01-02 00:00:00 > /etc/hosts|4100|5d41"
                          +:+ String LF "")).2.
Proof.
  apply (build_map_last_line_wins
           {[ "current.map" := File duplicate_content ]} "current.map"
           duplicate_content
           ["2021-01-01 00:00:00 > /etc/hosts|4096|d41d" +:+ String LF ""]
           ("2021-01-02 00:00:00 > /etc/hosts|4100|5d41" +:+ String LF "")
           []).
  - vm_compute. reflexivity.
  - vm_compute. reflexivity.
  - intros l Hl. by apply elem_of_nil in Hl.
Defined.

(** X5 on the file that ends with a blank line. *)
Lemma build_map_no_line_feed_witness :
  occurs LF hosts_key = false ∧ occurs LF hosts_original = false.
Proof.
  apply (build_map_no_line_feed
           {[ "current.map" := File blank_content ]} "current.map"
           blank_content (build_lines (readlines blank_content))).
  - vm_compute. reflexivity.
  - reflexivity.
  - vm_compute. reflexivity.
Defined.

(** X6 on the maps of the second scenario. *)
Lemma compare_empty_iff_equal_witness :
  collect [(hosts_key, hosts_original); (hosts_key, hosts_current)] = ∅
  ↔ original_hosts = current_hosts.
Proof.
  apply (compare_empty_iff_equal original_hosts current_hosts
           "original.map" "current.map" false).
  apply compare_loaded_intro.
  split; apply (bool_decide_unpack _); vm_compute; reflexivity.
Defined.

(** X7 on the maps of the second scenario. *)
Lemma compare_result_entries_witness :
  (∀ k, is_Some (collect [(hosts_key, hosts_original);
                          (hosts_key, hosts_current)] !! k)
        ↔ original_hosts !! k ≠ current_hosts !! k)
  ∧ (∀ k v, collect [(hosts_key, hosts_original);
                     (hosts_key, hosts_current)] !! k = Some v →
            original_hosts !! k = Some v ∨ current_hosts !! k = Some v).
Proof.
  apply (compare_result_entries original_hosts current_hosts
           "original.map" "current.map" false).
  apply compare_loaded_intro.
  split; apply (bool_decide_unpack _); vm_compute; reflexivity.
Defined.

(** X10 with a directory given as the current map file. *)
Lemma init_unreadable_then_compare_witness :
  ∃ log self,
    __init__ sample_fs "original.map" "maps" = (log, Constructed self)
    ∧ (ERROR, "[Errno 21] Is a directory: 'maps'") ∈ log
    ∧ ∀ f1 f2 p out, compare self f1 f2 p out ↔ out = AttributeError.
Proof.
  apply (init_unreadable_then_compare sample_fs "original.map" "maps").
  - apply (bool_decide_unpack _). vm_compute. reflexivity.
  - apply (bool_decide_unpack _). vm_compute. reflexivity.
  - right. vm_compute. reflexivity.
Defined.

(** X11 on the two sample files. *)
Lemma init_readable_then_compare_witness :
  ∃ log self,
    __init__ sample_fs "original.map" "current.map" = (log, Constructed self)
    ∧ (∀ f1 f2 p, ∃ result_set, compare self f1 f2 p (Return result_set))
    ∧ (∀ f1 f2 p out, compare self f1 f2 p out →
         ∃ result_set, out = Return result_set
           ∧ (result_set = ∅ ↔
              build_lines (readlines original_content)
              = build_lines (readlines current_content)))
    ∧ (readlines original_content ≡ₚ readlines current_content →
       NoDup ((λ line, (parse_line line).1) <$> readlines original_content) →
       ∀ f1 f2 p out, compare self f1 f2 p out → out = Return ∅).
Proof.
  apply (init_readable_then_compare sample_fs "original.map" "current.map").
  - vm_compute. reflexivity.
  - vm_compute. reflexivity.
Defined.

(** X13 on the maps of the two sample files. *)
Lemma write_report_counts_witness :
  let result :=
    write_report upper_ascii true "original.map" "current.map"
      "2021-01-02 @ 00:00:00"
      {[ hosts_key := hosts_original; old_key := old_value ]}
      {[ hosts_key := hosts_current ]} (insertion_order sample_order) in
  total_count result = size (collect sample_order)
  ∧ difference_count result
    = size (filter (λ k, checksum_changed
                           {[ hosts_key := hosts_original;
                              old_key := old_value ]}
                           {[ hosts_key := hosts_current ]} k = true)
              (dom ({[ hosts_key := hosts_original; old_key := old_value ]}
                      : gmap string string)))
  ∧ length (written result) = difference_count result + 2.
Proof.
  apply (write_report_counts upper_ascii true "original.map" "current.map"
           "2021-01-02 @ 00:00:00"
           {[ hosts_key := hosts_original; old_key := old_value ]}
           {[ hosts_key := hosts_current ]} sample_order).
  split; apply (bool_decide_unpack _); vm_compute; reflexivity.
Defined.

(** X14 on the maps of the two sample files and the two sample orders. *)
Lemma write_report_order_independent_witness :
  let result1 :=
    write_report upper_ascii false "original.map" "current.map"
      "2021-01-02 @ 00:00:00"
      {[ hosts_key := hosts_original; old_key := old_value ]}
      {[ hosts_key := hosts_current ]} (insertion_order sample_order) in
  let result2 :=
    write_report upper_ascii false "original.map" "current.map"
      "2021-01-02 @ 00:00:00"
      {[ hosts_key := hosts_original; old_key := old_value ]}
      {[ hosts_key := hosts_current ]} (insertion_order sample_order') in
  total_count result1 = total_count result2
  ∧ difference_count result1 = difference_count result2
  ∧ written result1 ≡ₚ written result2
  ∧ List.last (written result1) "" = List.last (written result2) "".
Proof.
  apply (write_report_order_independent upper_ascii false
           "original.map" "current.map" "2021-01-02 @ 00:00:00"
           {[ hosts_key := hosts_original; old_key := old_value ]}
           {[ hosts_key := hosts_current ]} sample_order sample_order').
  - split; apply (bool_decide_unpack _); vm_compute; reflexivity.
  - split; apply (bool_decide_unpack _); vm_compute; reflexivity.
Defined.

(** X15 with a directory given as the current map file. *)
Lemma scan_unreadable_file_witness :
  _scan upper_ascii sample_fs false "original.map" "maps"
    "2021-01-02 @ 00:00:00" sample_order
  = Failed "'NoneType' object has no attribute 'items'".
Proof.
  apply (scan_unreadable_file upper_ascii sample_fs false "original.map"
           "maps" "2021-01-02 @ 00:00:00" sample_order
           "[Errno 21] Is a directory: 'maps'").
  - apply (bool_decide_unpack _). vm_compute. reflexivity.
  - apply (bool_decide_unpack _). vm_compute. reflexivity.
  - right. vm_compute. reflexivity.
Defined.

(** X16 on the two sample files. *)
Lemma scan_readable_files_witness :
  _scan upper_ascii sample_fs true "original.map" "current.map"
    "2021-01-02 @ 00:00:00" sample_order
  = if decide (build_lines (readlines original_content)
               = build_lines (readlines current_content))
    then NoChanges
    else Reported
           (write_report upper_ascii true "original.map" "current.map"
              "2021-01-02 @ 00:00:00"
              (build_lines (readlines original_content))
              (build_lines (readlines current_content))
              (insertion_order sample_order)).
Proof.
  apply (scan_readable_files upper_ascii sample_fs true "original.map"
           "current.map" "2021-01-02 @ 00:00:00" sample_order
           original_content current_content).
  - vm_compute. reflexivity.
  - vm_compute. reflexivity.
  - split; apply (bool_decide_unpack _); vm_compute; reflexivity.
Defined.

(** X17 on the added file of the third scenario. *)
Lemma write_report_nothing_to_show_witness :
  write_report upper_ascii false "original.map" "current.map"
    "2021-01-02 @ 00:00:00" ∅ new_map [new_key]
  = {| total_count := 1;
       difference_count := 0;
       written :=
         [output_message "2021-01-02 @ 00:00:00";
          difference_message 0 "original.map" "current.map"];
       printed := [] |}.
Proof.
  apply (write_report_nothing_to_show upper_ascii false "original.map"
           "current.map" "2021-01-02 @ 00:00:00" ∅ new_map [new_key]).
  intros k. unfold checksum_changed. by rewrite lookup_empty.
Defined.

(** X18 on a file whose size has changed and whose checksum has not. *)
Lemma report_compares_last_field_witness :
  (after_last "|" "4096|d41d" = after_last "|" "4100|d41d" →
   entry_block upper_ascii {[ hosts_key := "4096|d41d" ]}
     {[ hosts_key := "4100|d41d" ]} hosts_key = None)
  ∧ (occurs " " (after_last "|" "4096|d41d") = false →
     occurs " " (after_last "|" "4100|d41d") = false →
     is_Some (entry_block upper_ascii {[ hosts_key := "4096|d41d" ]}
                {[ hosts_key := "4100|d41d" ]} hosts_key)
     ↔ strip (after_last "|" "4096|d41d") ≠ strip (after_last "|" "4100|d41d")).
Proof.
  apply (report_compares_last_field upper_ascii
           {[ hosts_key := "4096|d41d" ]} {[ hosts_key := "4100|d41d" ]}
           hosts_key "4096|d41d" "4100|d41d").
  - vm_compute. reflexivity.
  - vm_compute. reflexivity.
Defined.

(** X20 with the flag between the two paths, the results file of the day
    there and the reply that it may go. *)
Lemma main_scans_witness :
  let ended :=
    match _check_results_log sample_fs_with_results
            "./mapdiff-results-2021-01-02.txt" (Typed "Yes") false with
    | None => prompt_raised
    | Some fs' =>
        try_ended (_scan upper_ascii fs' true "original.map" "current.map"
                     "2021-01-02 @ 00:00:00" sample_order)
    end in
  main upper_ascii sample_fs_with_results "./mapdiff-results-2021-01-02.txt"
    (Typed "Yes") false "2021-01-02 @ 00:00:00" sample_order
    ["mapdiff.py"; "original.map"; "--verbose"; "current.map"]
  = (print_greeting
     :: scan ended
     :: match ended with
        | prompt_raised | try_ended (Exits _) => [print_usage]
        | _ => []
        end,
     Returns).
Proof.
  apply (main_scans upper_ascii sample_fs_with_results
           "./mapdiff-results-2021-01-02.txt" (Typed "Yes") false
           "2021-01-02 @ 00:00:00" sample_order
           "mapdiff.py" "original.map" "current.map").
  - apply (bool_decide_unpack _). vm_compute. reflexivity.
  - right. split; [reflexivity|].
    exists "--verbose", ["mapdiff.py"; "original.map"], ["current.map"].
    split; [by right|]. split; reflexivity.
Defined.

(** X21 with a current map file that is not there, the results file of the
    day there and no reply to the question about it. *)
Lemma main_missing_file_witness :
  main upper_ascii sample_fs_with_results "./mapdiff-results-2021-01-02.txt"
    NoLine false "2021-01-02 @ 00:00:00" sample_order
    ["mapdiff.py"; "original.map"; "missing.map"]
  = ([print_greeting;
      scan (match _check_results_log sample_fs_with_results
                    "./mapdiff-results-2021-01-02.txt" NoLine false with
            | None => prompt_raised
            | Some _ => try_ended (Exits 2)
            end);
      print_usage],
     Returns).
Proof.
  apply (main_missing_file upper_ascii sample_fs_with_results
           "./mapdiff-results-2021-01-02.txt" NoLine false
           "2021-01-02 @ 00:00:00" sample_order
           "mapdiff.py" "original.map" "missing.map").
  - apply (bool_decide_unpack _). vm_compute. reflexivity.
  - right. vm_compute. reflexivity.
Defined.

(** X22 with one path only. *)
Lemma main_wrong_number_of_arguments_witness :
  main upper_ascii sample_fs "./mapdiff-results-2021-01-02.txt" NoLine false
    "2021-01-02 @ 00:00:00" sample_order ["mapdiff.py"; "original.map"]
  = ([print_usage], Returns).
Proof.
  apply (main_wrong_number_of_arguments upper_ascii sample_fs
           "./mapdiff-results-2021-01-02.txt" NoLine false
           "2021-01-02 @ 00:00:00" sample_order ["mapdiff.py"; "original.map"]).
  - apply (bool_decide_unpack _). vm_compute. reflexivity.
  - simpl. lia.
Defined.

(** The two ways of the run on a missing map file: with no reply to the
    question about the results file the prompt leaves [_scan]; with the
    results file not there it is the [sys.exit(2)] of the analyzer. *)
Example main_missing_file_both_ways :
  main upper_ascii sample_fs_with_results "./mapdiff-results-2021-01-02.txt"
    NoLine false "2021-01-02 @ 00:00:00" sample_order
    ["mapdiff.py"; "original.map"; "missing.map"]
  = ([print_greeting; scan prompt_raised; print_usage], Returns)
  ∧ main upper_ascii sample_fs "./mapdiff-results-2021-01-02.txt"
      NoLine false "2021-01-02 @ 00:00:00" sample_order
      ["mapdiff.py"; "original.map"; "missing.map"]
    = ([print_greeting; scan (try_ended (Exits 2)); print_usage], Returns).
Proof. split; vm_compute; reflexivity. Qed.

End more_samples.
